(** * DiscreteStellarFeedback: the statistical model behind discrete stellar
    feedback (src/DiscreteStellarFeedback.cpp of Shadowfax)

    The C++ class is embedded shallowly.  A [double] is modelled by a real
    number, so round-off is abstracted away: the development speaks about the
    arithmetic the code writes down, not about its IEEE rounding.  The object
    is a store indexed by the names of its member variables; member functions
    take the object ([this]) explicitly; [initialize] threads the object
    through its assignments in source order.  Local C arrays are lists of
    optional cells whose out-of-range or uninitialised accesses fail.

    Three collaborators of the class are implemented outside its source
    file: the adaptive quadrature [GSL::qag], the evaluation of a
    [GSL::GSLInterpolator], and the dump and creation of an interpolator on
    a restart file.  They are parameters of the model, and what a theorem
    needs from them is spelled out as a hypothesis of that theorem. *)

From Stdlib Require Import Reals Lra Lia List Bool Arith ZArith.
Import ListNotations.

Open Scope R_scope.

(** ** <cmath> on reals *)

(** [log10(x)], meaningful for [0 < x]. *)
Definition log10 (x : R) : R := ln x / ln 10.

(** [pow(x, y)] of <cmath>.  For a positive base it is [Rpower].  For a
    base that is not positive and an integer exponent it is the integer
    power, so [pow(0, 0)] is 1 and a negative base keeps its sign rule.  For
    a zero base and a positive exponent that is no integer [pow] is zero.
    Two results of <cmath> have no real to stand for them: the infinity of
    a zero base with a negative exponent, and the NaN of a negative base
    with an exponent that is no integer.  The model yields zero for both, so
    that the test [IMF > 0.] made on the result fails as it does on a NaN.
    Every theorem below uses [pow] on positive bases only. *)
Definition pow (x y : R) : R :=
  if Rlt_dec 0 x then Rpower x y
  else if Req_dec_T y (IZR (Int_part y)) then powerRZ x (Int_part y)
  else 0.

(** Comparisons of doubles as booleans. *)
Definition Rltb (x y : R) : bool := if Rlt_dec x y then true else false.
Definition Rgtb (x y : R) : bool := Rltb y x.

Infix "<?" := Rltb (at level 70, no associativity) : R_scope.
Infix ">?" := Rgtb (at level 70, no associativity) : R_scope.

(** ** Option monad for the code that can go wrong *)

Definition obind {A B : Type} (c : option A) (k : A -> option B) : option B :=
  match c with
  | Some a => k a
  | None => None
  end.

Notation "x <- c ;; k" := (obind c (fun x => k))
  (at level 61, c at next level, right associativity).
Notation "' p <- c ;; k" := (obind c (fun x => let p := x in k))
  (at level 61, p pattern, c at next level, right associativity).

(** ** Local arrays of doubles

    [double a[n];] declares [n] cells of indeterminate content: a cell is
    [None] until it is written.  Storing outside the array, and reading a
    cell that was never written, are undefined behaviour in C++ and fail
    here. *)

Abbreviation array := (list (option R)).

Definition new_array (n : nat) : array := repeat None n.

(** [double a[n] = {...};] *)
Definition array_of (l : list R) : array := map Some l.

Fixpoint update (a : array) (i : nat) (v : R) : array :=
  match a, i with
  | [], _ => []
  | _ :: a', O => Some v :: a'
  | c :: a', S i' => c :: update a' i' v
  end.

(** [a[i] = v;] *)
Definition store (a : array) (i : nat) (v : R) : option array :=
  if (i <? length a)%nat then Some (update a i v) else None.

(** [a[i]] as an rvalue *)
Definition load (a : array) (i : nat) : option R := nth i a None.

(** The first [n] cells of [a], all of which must have been written. *)
Fixpoint read_block (a : array) (n : nat) {struct n} : option (list R) :=
  match n with
  | O => Some []
  | S n' =>
      match a with
      | Some v :: a' => l <- read_block a' n' ;; Some (v :: l)
      | _ => None
      end
  end.

(** [for(t = t0; t < bound; t += step) body]: the loop state [st] is what the
    body updates.  [fuel] bounds the number of iterations; [initialize] gives
    each loop as much fuel as the array it fills has cells, since every
    iteration writes one further cell and an iteration beyond that would
    store out of range anyway. *)
Fixpoint for_lt {S : Type} (fuel : nat) (bound step : R)
    (body : R -> S -> option S) (t : R) (st : S) : option S :=
  if Rlt_dec t bound then
    match fuel with
    | O => None
    | Datatypes.S fuel' =>
        st' <- body t st ;; for_lt fuel' bound step body (t + step) st'
    end
  else Some st.

(** ** GSL interpolators *)

Inductive GSLInterpolatorType : Type :=
  | TypeGSLCubicSplineInterpolator
  | TypeGSLLinearInterpolator.

(** What a [GSL::GSLInterpolator] holds: its kind and the knots it was
    created from. *)
Record GSLInterpolator : Type := mkInterpolator {
  sp_type : GSLInterpolatorType;
  sp_x : list R;
  sp_y : list R
}.

(** [GSL::GSLInterpolator::create(type, x, y, size)] copies the first [size]
    cells of [x] and of [y]. *)
Definition create (type : GSLInterpolatorType) (x y : array) (size : nat)
    : option GSLInterpolator :=
  xs <- read_block x size ;;
  ys <- read_block y size ;;
  Some (mkInterpolator type xs ys).

(** ** The object *)

(** The member variables that are doubles. *)
Inductive scalar_field : Type :=
  | _PopII_M_low | _PopII_M_upp | _PopII_fac_IMF
  | _PopII_M_SNII_low
  | _PopII_M_SNIa_low | _PopII_M_SNIa_upp
  | _PopII_SNIa_delay_mu | _PopII_SNIa_delay_sigma
  | _PopII_SNIa_delay_norm1 | _PopII_SNIa_delay_norm2
  | _PopIII_cutoff
  | _PopIII_M_low | _PopIII_M_upp | _PopIII_M_SN_low
  | _PopIII_M1 | _PopIII_M2 | _PopIII_M3 | _PopIII_fac | _PopIII_pw
  | _PopII_Mint | _PopII_NIIint | _PopII_NIaint
  | _PopIII_Mint | _PopIII_Nint | _PopIII_Eint
  | _PopII_SNII_energy | _PopII_SNII_mass | _PopII_SNII_metals
  | _PopII_SNII_Fe | _PopII_SNII_Mg
  | _PopII_SNIa_energy | _PopII_SNIa_mass | _PopII_SNIa_metals
  | _PopII_SNIa_Fe | _PopII_SNIa_Mg
  | _PopII_SW_energy | _PopII_SW_end_time
  | _PopIII_SN_energy | _PopIII_SN_mass | _PopIII_SN_metals
  | _PopIII_SN_Fe | _PopIII_SN_Mg
  | _PopIII_SW_energy | _PopIII_SW_end_time.

(** The member variables that point to an interpolator. *)
Inductive spline_field : Type :=
  | _PopII_SNIa_delay_spline
  | _PopIII_IMF_spline
  | _PopII_lifetime_spline
  | _PopIII_lifetime_spline
  | _PopIII_E_SN_spline.

Scheme Equality for scalar_field.
Scheme Equality for spline_field.

(** A [DiscreteStellarFeedback] object: the value of every member. *)
Record DiscreteStellarFeedback : Type := mkObject {
  scalars : scalar_field -> R;
  splines : spline_field -> GSLInterpolator
}.

Definition set_scalar (this : DiscreteStellarFeedback) (f : scalar_field)
    (v : R) : DiscreteStellarFeedback :=
  mkObject (fun g => if scalar_field_beq g f then v else scalars this g)
           (splines this).

Definition set_spline (this : DiscreteStellarFeedback) (f : spline_field)
    (s : GSLInterpolator) : DiscreteStellarFeedback :=
  mkObject (scalars this)
           (fun g => if spline_field_beq g f then s else splines this g).

Notation "this '.[' f ']'" := (scalars this f)
  (at level 1, left associativity, format "this .[ f ]").
Notation "this '.<' f '>'" := (splines this f)
  (at level 1, f at level 0, left associativity, format "this .< f >").
Notation "this '<|' f ':=' v '|>'" := (set_scalar this f v)
  (at level 1, left associativity, f at level 0, v at level 99).
Notation "this '<|' f ':->' s '|>'" := (set_spline this f s)
  (at level 1, left associativity, f at level 0, s at level 99).

(** ** The model, over the quadrature and the evaluation of interpolators *)

Section Model.

(** [GSL::qag(f, a, b, tolerance, this)]: the integral of [f] from [a] to
    [b].  The static trampolines [X_static(x, this)] of the class only call
    the member [X] on [this]; the integrand is passed as the closure
    [X this]. *)
Variable qag : (R -> R) -> R -> R -> R -> R.

(** [spline->eval(x)] *)
Variable eval : GSLInterpolator -> R -> R.

(** Low mass part of the Chabrier IMF. *)
Definition PopII_IMF_sub1 (m : R) : R :=
  let a := log10 m + 1.1024 in
  exp (-0.5 * (a * a / 0.4761)) / m.

(** Chabrier IMF. *)
Definition PopII_IMF (this : DiscreteStellarFeedback) (m : R) : R :=
  if (m >? this.[_PopII_M_low]) && (m <? this.[_PopII_M_upp]) then
    if m <? 1 then this.[_PopII_fac_IMF] * PopII_IMF_sub1 m
    else pow m (-2.3)
  else 0.

(** Chabrier IMF mass integrand. *)
Definition PopII_mIMF (this : DiscreteStellarFeedback) (m : R) : R :=
  m * PopII_IMF this m.

(** First part of the SNIa delay time distribution. *)
Definition PopII_SNIa_delay1 (this : DiscreteStellarFeedback) (t : R) : R :=
  let a := (t - this.[_PopII_SNIa_delay_mu]) / this.[_PopII_SNIa_delay_sigma] in
  this.[_PopII_SNIa_delay_norm1] * (t - 0.03) * (13.6 - t) *
  exp (-0.5 * a * a).

(** Second part of the SNIa delay time distribution. *)
Definition PopII_SNIa_delay2 (this : DiscreteStellarFeedback) (t : R) : R :=
  let delay :=
    if t <? 0.25 then
      this.[_PopII_SNIa_delay_norm2] *
      (exp ((t - 0.25) / 0.1) - exp ((0.03 - 0.25) / 0.1))
    else
      this.[_PopII_SNIa_delay_norm2] *
      (exp ((0.25 - t) / 7) - exp ((0.03 - 0.25) / 0.1)) in
  if delay >? 0 then delay else 0.

(** SNIa delay time distribution. *)
Definition PopII_SNIa_delay (this : DiscreteStellarFeedback) (t : R) : R :=
  PopII_SNIa_delay1 this t + PopII_SNIa_delay2 this t.

(** Susa PopIII IMF. *)
Definition PopIII_IMF (this : DiscreteStellarFeedback) (m : R) : R :=
  if (m >? this.[_PopIII_M_low]) && (m <? this.[_PopIII_M_upp]) then
    let logm := log10 m in
    let IMF :=
      if logm <? this.[_PopIII_M2] then
        0.5 * (logm - this.[_PopIII_M1]) /
        (this.[_PopIII_M2] - this.[_PopIII_M1])
      else
        0.5 * (logm + this.[_PopIII_M3] - 2 * this.[_PopIII_M2]) /
        (this.[_PopIII_M3] - this.[_PopIII_M2]) in
    let IMF := this.[_PopIII_fac] * pow (IMF * (1.0 - IMF)) this.[_PopIII_pw] in
    if IMF >? 0 then IMF / m else 0
  else 0.

(** Susa PopIII IMF mass integrand. *)
Definition PopIII_mIMF (this : DiscreteStellarFeedback) (m : R) : R :=
  m * PopIII_IMF this m.

(** Energy of a PopIII SN with a given mass. *)
Definition PopIII_E_SN (this : DiscreteStellarFeedback) (m : R) : R :=
  1e51 * eval this.<_PopIII_E_SN_spline> m.

(** Integrand of the PopIII IMF energy integral. *)
Definition PopIII_EIMF (this : DiscreteStellarFeedback) (m : R) : R :=
  PopIII_E_SN this m * PopIII_IMF this m.

(** The knot tables written out in [initialize]. *)
Definition PopII_lifetime_ms : list R :=
  [ 0.65; 0.7;  0.75; 0.8;  0.85; 0.9;  0.95; 1;    1.05; 1.1;  1.15;
    1.2;  1.25; 1.3;  1.35; 1.4;  1.45; 1.5;  1.55; 1.6;  1.65; 1.7;
    1.75; 1.8;  1.85; 1.9;  1.95; 2;    2.05; 2.1;  2.15; 2.2;  2.25;
    2.3;  2.35; 2.4;  2.6;  2.8;  3;    3.2;  3.4;  3.6;  3.8;  4;
    4.2;  4.4;  4.6;  4.8;  5;    5.2;  5.4;  5.6;  5.8;  6;    6.2;
    6.4;  7;    8;    9;    10;   11;   12;   14;   16;   18;   20;
    24;   28;   30;   40;   45;   50;   55;   60;   65;   70;   75;
    80;   90;   95;   100;  120;  150;  200;  250;  300;  350 ].

Definition PopII_lifetime_ts : list R :=
  [ 10.452;  10.3415; 10.2362; 10.139;  10.0468; 9.95885; 9.87605;
    9.79803; 9.72399; 9.65217; 9.58335; 9.52138; 9.46703; 9.42591;
    9.38266; 9.33495; 9.28953; 9.24572; 9.20422; 9.16552; 9.12806;
    9.0921;  9.05728; 9.02345; 8.99101; 8.95935; 8.92926; 8.90003;
    8.87177; 8.84446; 8.81782; 8.79194; 8.7669;  8.74255; 8.7187;
    8.69608; 8.60937; 8.53033; 8.45752; 8.39064; 8.32889; 8.27122;
    8.21763; 8.16709; 8.12;    8.07545; 8.03334; 7.99336; 7.95561;
    7.91966; 7.88551; 7.85298; 7.82191; 7.79234; 7.76385; 7.73664;
    7.66115; 7.55343; 7.46282; 7.38582; 7.31927; 7.26113; 7.16375;
    7.08681; 7.02325; 6.97053; 6.88722; 6.82377; 6.79741; 6.72284;
    6.68824; 6.65918; 6.63473; 6.61362; 6.59507; 6.57899; 6.56445;
    6.55241; 6.52965; 6.52028; 6.5111;  6.48241; 6.45054; 6.41528;
    6.3914;  6.37373; 6.36056 ].

Definition PopIII_lifetime_ms : list R :=
  [ 0.7; 0.8; 0.9; 1;  1.1; 1.2; 1.3; 1.4;
    1.5; 1.6; 1.8; 2;  2.5; 3;   4;   5;
    10;  15;  20;  30; 50;  70;  100; 500 ].

Definition PopIII_lifetime_ts : list R :=
  [ 1.32077;   1.13354;   0.947924;  0.78533;  0.637463;  0.516384;
    0.399708;  0.289454;  0.193159;  0.100413; -0.062413; -0.208425;
    -0.493919; -0.702468; -0.979499; -1.18585; -1.75003;  -1.96392;
    -2.08837;  -2.24245;  -2.39566;  -2.47468; -2.54276;  -2.89056 ].

Definition ms : list R :=
  [ 0.7;  10;  35;  40;  50;  60;
    70;  80;  90;  100; 140; 140 + 1e-10;
    150; 170; 200; 270; 300; 500 ].

Definition Es : list R :=
  [ 0; 1; 1; 1;  1;  1;  1;  1;  1;
    1; 1; 9; 16; 28; 44; 49; 50; 50 ].

(** [initialize] is one function in the source; its blocks, each under the
    comment that heads it there, are transcribed one by one and composed in
    order by [initialize] below.  [this] on entry is the object as the
    constructor finds it: every member holds an arbitrary value. *)

(** Chabrier IMF, SNIa delay time distribution, cutoff metallicity and PopIII
    IMF: the literal parameters. *)
Definition set_parameters (this : DiscreteStellarFeedback)
    : DiscreteStellarFeedback :=
  (* Chabrier IMF: mass interval and normalization factor for low mass part *)
  let this := this <| _PopII_M_low := 0.07 |> in
  let this := this <| _PopII_M_upp := 100 |> in
  let this := this <| _PopII_M_SNII_low := 8 |> in
  let this := this <| _PopII_M_SNIa_low := 3 |> in
  let this := this <| _PopII_M_SNIa_upp := 8 |> in
  let this := this <| _PopII_fac_IMF := 1 / PopII_IMF_sub1 1 |> in
  (* SNIa delay time distribution *)
  let this := this <| _PopII_SNIa_delay_mu := 0.05 |> in
  let this := this <| _PopII_SNIa_delay_sigma := 0.01 |> in
  let this := this <| _PopII_SNIa_delay_norm1 := 1 |> in
  let this := this <| _PopII_SNIa_delay_norm2 := 1 |> in
  (* Cutoff metallicity for PopIII stars *)
  let this := this <| _PopIII_cutoff := -5 |> in
  (* PopIII IMF: mass interval and factors *)
  let this := this <| _PopIII_M_low := 0.7 |> in
  let this := this <| _PopIII_M_upp := 500 |> in
  let this := this <| _PopIII_M_SN_low := 10 |> in
  let this := this <| _PopIII_M1 := log10 this.[_PopIII_M_low] |> in
  let this := this <| _PopIII_M2 := 1.51130759 |> in
  let this := this <| _PopIII_M3 := log10 this.[_PopIII_M_upp] |> in
  let this := this <| _PopIII_fac := 708.92544818 |> in
  let this := this <| _PopIII_pw := 2.8008394 |> in
  this.

(** Calculate number of SNII, SNIa and PopIII SN by integrating the IMFs. *)
Definition integrate_IMFs (this : DiscreteStellarFeedback)
    : DiscreteStellarFeedback :=
  let this := this <| _PopII_Mint :=
    qag (PopII_mIMF this) this.[_PopII_M_low] this.[_PopII_M_upp] 1e-8 |> in
  let this := this <| _PopII_NIIint :=
    qag (PopII_IMF this) this.[_PopII_M_SNII_low] this.[_PopII_M_upp] 1e-8 |> in
  let this := this <| _PopII_NIaint :=
    qag (PopII_IMF this) this.[_PopII_M_SNIa_low] this.[_PopII_M_SNIa_upp]
        1e-8 |> in
  let this := this <| _PopIII_Mint :=
    qag (PopIII_mIMF this) this.[_PopIII_M_low] this.[_PopIII_M_upp] 1e-8 |> in
  let this := this <| _PopIII_Nint :=
    qag (PopIII_IMF this) this.[_PopIII_M_SN_low] this.[_PopIII_M_upp] 1e-8 |> in
  this.

(** Normalize the SNIa delay time function. *)
Definition normalize_delay (this : DiscreteStellarFeedback)
    : DiscreteStellarFeedback :=
  let dint := qag (PopII_SNIa_delay1 this) 0.03 13.6 1e-8 in
  let this := this <| _PopII_SNIa_delay_norm1 := 0.4 / dint |> in
  let dint := qag (PopII_SNIa_delay2 this) 0.03 13.6 1e-8 in
  let this := this <| _PopII_SNIa_delay_norm2 := 0.6 / dint |> in
  this.

(** Initialize the cumulative SNIa delay time spline. *)
Definition init_SNIa_delay_spline (this : DiscreteStellarFeedback)
    : option DiscreteStellarFeedback :=
  let ts := new_array 30 in
  let cumul_delay := new_array 30 in
  let i := 1%nat in
  ts <- store ts 0 (-2) ;;
  cumul_delay <- store cumul_delay 0 0 ;;
  '(i, ts, cumul_delay) <-
    for_lt 30 (log10 13.6) 0.1
      (fun t '(i, ts, cumul_delay) =>
         ts <- store ts i t ;;
         cumul_delay <-
           store cumul_delay i
             (qag (PopII_SNIa_delay this) 0.03 (pow 10 t) 1e-8) ;;
         Some (S i, ts, cumul_delay))
      (log10 0.03) (i, ts, cumul_delay) ;;
  ts <- store ts 28 (log10 13.6) ;;
  cumul_delay <- store cumul_delay 28 1 ;;
  ts <- store ts 29 (log10 13.8) ;;
  cumul_delay <- store cumul_delay 29 1 ;;
  (* ts[0] += cumul_delay[1]; *)
  ts_0 <- load ts 0 ;;
  cumul_delay_1 <- load cumul_delay 1 ;;
  ts <- store ts 0 (ts_0 + cumul_delay_1) ;;
  s <- create TypeGSLCubicSplineInterpolator ts cumul_delay 30 ;;
  Some (this <| _PopII_SNIa_delay_spline :-> s |>).

(** Initialize the cumulative PopIII IMF spline. *)
Definition init_PopIII_IMF_spline (this : DiscreteStellarFeedback)
    : option DiscreteStellarFeedback :=
  let PopIII_IMF_ms := new_array 289 in
  let PopIII_IMF_IMFs := new_array 289 in
  let i := 1%nat in
  PopIII_IMF_ms <- store PopIII_IMF_ms 0 (-2) ;;
  PopIII_IMF_IMFs <-
    store PopIII_IMF_IMFs 0
      (qag (PopIII_IMF this) 0 this.[_PopIII_M_upp] 1e-8) ;;
  '(i, PopIII_IMF_ms, PopIII_IMF_IMFs) <-
    for_lt 289 (log10 this.[_PopIII_M_upp]) 0.01
      (fun m '(i, PopIII_IMF_ms, PopIII_IMF_IMFs) =>
         PopIII_IMF_ms <- store PopIII_IMF_ms i m ;;
         PopIII_IMF_IMFs <-
           store PopIII_IMF_IMFs i
             (qag (PopIII_IMF this) (pow 10 m) this.[_PopIII_M_upp] 1e-8) ;;
         Some (S i, PopIII_IMF_ms, PopIII_IMF_IMFs))
      (log10 this.[_PopIII_M_low]) (i, PopIII_IMF_ms, PopIII_IMF_IMFs) ;;
  PopIII_IMF_ms <- store PopIII_IMF_ms 287 (log10 this.[_PopIII_M_upp]) ;;
  PopIII_IMF_IMFs <- store PopIII_IMF_IMFs 287 0 ;;
  PopIII_IMF_ms <- store PopIII_IMF_ms 288 3 ;;
  PopIII_IMF_IMFs <- store PopIII_IMF_IMFs 288 0 ;;
  s <- create TypeGSLLinearInterpolator PopIII_IMF_ms PopIII_IMF_IMFs 289 ;;
  Some (this <| _PopIII_IMF_spline :-> s |>).

(** Initialize the PopII and the PopIII lifetime spline. *)
Definition init_lifetime_splines (this : DiscreteStellarFeedback)
    : option DiscreteStellarFeedback :=
  s <- create TypeGSLCubicSplineInterpolator (array_of PopII_lifetime_ms)
         (array_of PopII_lifetime_ts) 87 ;;
  let this := this <| _PopII_lifetime_spline :-> s |> in
  s <- create TypeGSLCubicSplineInterpolator (array_of PopIII_lifetime_ms)
         (array_of PopIII_lifetime_ts) 24 ;;
  let this := this <| _PopIII_lifetime_spline :-> s |> in
  Some this.

(** Initialize PopIII SN energy spline using Woosley energy data; calculate
    PopIII SN energy integral. *)
Definition init_PopIII_E_SN (this : DiscreteStellarFeedback)
    : option DiscreteStellarFeedback :=
  s <- create TypeGSLLinearInterpolator (array_of ms) (array_of Es) 18 ;;
  let this := this <| _PopIII_E_SN_spline :-> s |> in
  let this := this <| _PopIII_Eint :=
    qag (PopIII_EIMF this) this.[_PopIII_M_SN_low] this.[_PopIII_M_upp] 1e-8 |> in
  Some this.

(** Initialize feedback values. *)
Definition set_feedback_values (this : DiscreteStellarFeedback)
    : DiscreteStellarFeedback :=
  let feedback_efficiency := 0.7 in
  let this := this <| _PopII_SNII_energy := 1e51 * feedback_efficiency |> in
  let this := this <| _PopII_SNII_mass := 0.191445322565 |> in
  let this := this <| _PopII_SNII_metals := 0.0241439721018 |> in
  let this := this <| _PopII_SNII_Fe := 0.000932719658516 |> in
  let this := this <| _PopII_SNII_Mg := 0.00151412640705 |> in
  let this := this <| _PopII_SNIa_energy := 1e51 * feedback_efficiency |> in
  let this := this <| _PopII_SNIa_mass := 0.00655147325196 |> in
  let this := this <| _PopII_SNIa_metals := 0.00655147325196 |> in
  let this := this <| _PopII_SNIa_Fe := 0.00165100587997 |> in
  let this := this <| _PopII_SNIa_Mg := 0.000257789470044 |> in
  let this := this <| _PopII_SW_energy := 1e50 * feedback_efficiency |> in
  let this := this <| _PopII_SW_end_time := 31.0 |> in
  let this := this <| _PopII_SW_energy :=
    this.[_PopII_SW_energy] / this.[_PopII_SW_end_time] |> in
  let this := this <| _PopIII_SN_energy :=
    this.[_PopIII_Eint] * feedback_efficiency |> in
  let this := this <| _PopIII_SN_mass := 0.45 |> in
  let this := this <| _PopIII_SN_metals := 0.026 |> in
  let this := this <| _PopIII_SN_Fe := 0.0000932719658516 |> in
  let this := this <| _PopIII_SN_Mg := 0.000151412640705 |> in
  let this := this <| _PopIII_SW_energy := 1e51 * feedback_efficiency |> in
  let this := this <| _PopIII_SW_end_time := 16.7 |> in
  let this := this <| _PopIII_SW_energy :=
    this.[_PopIII_SW_energy] / this.[_PopIII_SW_end_time] |> in
  this.

(** Initialize the internal variables. *)
Definition initialize (this : DiscreteStellarFeedback)
    : option DiscreteStellarFeedback :=
  let this := set_parameters this in
  let this := integrate_IMFs this in
  let this := normalize_delay this in
  this <- init_SNIa_delay_spline this ;;
  this <- init_PopIII_IMF_spline this ;;
  this <- init_lifetime_splines this ;;
  this <- init_PopIII_E_SN this ;;
  Some (set_feedback_values this).

(** The constructor calls [initialize]. *)
Definition DiscreteStellarFeedback_new (this : DiscreteStellarFeedback)
    : option DiscreteStellarFeedback :=
  initialize this.

(** Give discrete stellar feedback: the body is empty ("needs to be
    implemented").  The call returns the object, the star particle and the
    particle vector as it leaves them. *)
Definition do_feedback {StarParticle ParticleVector : Type}
    (this : DiscreteStellarFeedback) (star : StarParticle)
    (particles : ParticleVector) (dt : R)
    : DiscreteStellarFeedback * StarParticle * ParticleVector :=
  (this, star, particles).

End Model.

(** ** Restart files *)

(** A restart file is the sequence of the values written to it. *)
Inductive value : Type :=
  | Vdouble (d : R)
  | Vuint (n : nat).

(** What a member function did with a restart file: the member it wrote or
    read, in order.  The log is ghost state, kept next to the data. *)
Inductive access : Type :=
  | scalar_access (f : scalar_field)
  | spline_access (f : spline_field).

(** [contents] is what follows the cursor of a file that is read, and
    everything written so far in a file that is written. *)
Record RestartFile : Type := mkRestartFile {
  contents : list value;
  accesses : list access
}.

Section Persistence.

(** [spline->dump(rfile)] appends [spline_dump spline] to the file and
    [GSL::GSLInterpolator::create(rfile)] consumes a prefix of it. *)
Variable spline_dump : GSLInterpolator -> list value.
Variable spline_create : list value -> option (GSLInterpolator * list value).

(** [rfile.write(f)] on a member [f] of [this] *)
Definition write (this : DiscreteStellarFeedback) (f : scalar_field)
    (rfile : RestartFile) : RestartFile :=
  mkRestartFile (contents rfile ++ [Vdouble this.[f]])
                (accesses rfile ++ [scalar_access f]).

(** [f->dump(rfile)] on a spline member [f] of [this] *)
Definition dump_spline (this : DiscreteStellarFeedback) (f : spline_field)
    (rfile : RestartFile) : RestartFile :=
  mkRestartFile (contents rfile ++ spline_dump this.<f>)
                (accesses rfile ++ [spline_access f]).

(** [rfile.read(f)] into a member [f] of [this] *)
Definition read (this : DiscreteStellarFeedback) (f : scalar_field)
    (rfile : RestartFile) : option (DiscreteStellarFeedback * RestartFile) :=
  match contents rfile with
  | Vdouble d :: rest =>
      Some (this <| f := d |>,
            mkRestartFile rest (accesses rfile ++ [scalar_access f]))
  | _ => None
  end.

(** [f = GSL::GSLInterpolator::create(rfile)] for a spline member [f] *)
Definition create_spline (this : DiscreteStellarFeedback) (f : spline_field)
    (rfile : RestartFile) : option (DiscreteStellarFeedback * RestartFile) :=
  '(s, rest) <- spline_create (contents rfile) ;;
  Some (this <| f :-> s |>,
        mkRestartFile rest (accesses rfile ++ [spline_access f])).

(** Dump the object to the given RestartFile. *)
Definition dump (this : DiscreteStellarFeedback) (rfile : RestartFile)
    : RestartFile :=
  let rfile := write this _PopII_M_low rfile in
  let rfile := write this _PopII_M_upp rfile in
  let rfile := write this _PopII_fac_IMF rfile in
  let rfile := write this _PopII_M_SNII_low rfile in
  let rfile := write this _PopII_M_SNIa_low rfile in
  let rfile := write this _PopII_M_SNIa_upp rfile in
  let rfile := write this _PopII_SNIa_delay_mu rfile in
  let rfile := write this _PopII_SNIa_delay_sigma rfile in
  let rfile := write this _PopII_SNIa_delay_norm1 rfile in
  let rfile := write this _PopII_SNIa_delay_norm2 rfile in
  let rfile := write this _PopIII_cutoff rfile in
  let rfile := write this _PopIII_M_low rfile in
  let rfile := write this _PopIII_M_upp rfile in
  let rfile := write this _PopIII_M_SN_low rfile in
  let rfile := write this _PopIII_M1 rfile in
  let rfile := write this _PopIII_M2 rfile in
  let rfile := write this _PopIII_M3 rfile in
  let rfile := write this _PopIII_fac rfile in
  let rfile := write this _PopIII_pw rfile in
  let rfile := write this _PopII_Mint rfile in
  let rfile := write this _PopII_NIIint rfile in
  let rfile := write this _PopII_NIaint rfile in
  let rfile := write this _PopIII_Mint rfile in
  let rfile := write this _PopIII_Nint rfile in
  let rfile := write this _PopIII_Eint rfile in
  let rfile := dump_spline this _PopII_SNIa_delay_spline rfile in
  let rfile := dump_spline this _PopIII_IMF_spline rfile in
  let rfile := dump_spline this _PopII_lifetime_spline rfile in
  let rfile := dump_spline this _PopIII_lifetime_spline rfile in
  let rfile := dump_spline this _PopIII_E_SN_spline rfile in
  let rfile := write this _PopII_SNII_energy rfile in
  let rfile := write this _PopII_SNII_mass rfile in
  let rfile := write this _PopII_SNII_metals rfile in
  let rfile := write this _PopII_SNII_Fe rfile in
  let rfile := write this _PopII_SNII_Mg rfile in
  let rfile := write this _PopII_SNIa_energy rfile in
  let rfile := write this _PopII_SNIa_mass rfile in
  let rfile := write this _PopII_SNIa_metals rfile in
  let rfile := write this _PopII_SNIa_Fe rfile in
  let rfile := write this _PopII_SNIa_Mg rfile in
  let rfile := write this _PopII_SW_energy rfile in
  let rfile := write this _PopII_SW_end_time rfile in
  let rfile := write this _PopIII_SN_energy rfile in
  let rfile := write this _PopIII_SN_mass rfile in
  let rfile := write this _PopIII_SN_metals rfile in
  let rfile := write this _PopIII_SN_Fe rfile in
  let rfile := write this _PopIII_SN_Mg rfile in
  let rfile := write this _PopIII_SW_energy rfile in
  let rfile := write this _PopIII_SW_end_time rfile in
  rfile.

(** Restart constructor.  [this] on entry is the object as the constructor
    finds it; the result is the object and the file past what was read. *)
Definition restart (rfile : RestartFile) (this : DiscreteStellarFeedback)
    : option (DiscreteStellarFeedback * RestartFile) :=
  '(this, rfile) <- read this _PopII_M_low rfile ;;
  '(this, rfile) <- read this _PopII_M_upp rfile ;;
  '(this, rfile) <- read this _PopII_fac_IMF rfile ;;
  '(this, rfile) <- read this _PopII_M_SNII_low rfile ;;
  '(this, rfile) <- read this _PopII_M_SNIa_low rfile ;;
  '(this, rfile) <- read this _PopII_M_SNIa_upp rfile ;;
  '(this, rfile) <- read this _PopII_SNIa_delay_mu rfile ;;
  '(this, rfile) <- read this _PopII_SNIa_delay_sigma rfile ;;
  '(this, rfile) <- read this _PopII_SNIa_delay_norm1 rfile ;;
  '(this, rfile) <- read this _PopII_SNIa_delay_norm2 rfile ;;
  '(this, rfile) <- read this _PopIII_cutoff rfile ;;
  '(this, rfile) <- read this _PopIII_M_low rfile ;;
  '(this, rfile) <- read this _PopIII_M_upp rfile ;;
  '(this, rfile) <- read this _PopIII_M_SN_low rfile ;;
  '(this, rfile) <- read this _PopIII_M1 rfile ;;
  '(this, rfile) <- read this _PopIII_M2 rfile ;;
  '(this, rfile) <- read this _PopIII_M3 rfile ;;
  '(this, rfile) <- read this _PopIII_fac rfile ;;
  '(this, rfile) <- read this _PopIII_pw rfile ;;
  '(this, rfile) <- read this _PopII_Mint rfile ;;
  '(this, rfile) <- read this _PopII_NIIint rfile ;;
  '(this, rfile) <- read this _PopII_NIaint rfile ;;
  '(this, rfile) <- read this _PopIII_Mint rfile ;;
  '(this, rfile) <- read this _PopIII_Nint rfile ;;
  '(this, rfile) <- read this _PopIII_Eint rfile ;;
  '(this, rfile) <- create_spline this _PopII_SNIa_delay_spline rfile ;;
  '(this, rfile) <- create_spline this _PopIII_IMF_spline rfile ;;
  '(this, rfile) <- create_spline this _PopII_lifetime_spline rfile ;;
  '(this, rfile) <- create_spline this _PopIII_lifetime_spline rfile ;;
  '(this, rfile) <- create_spline this _PopIII_E_SN_spline rfile ;;
  '(this, rfile) <- read this _PopII_SNII_energy rfile ;;
  '(this, rfile) <- read this _PopII_SNII_mass rfile ;;
  '(this, rfile) <- read this _PopII_SNII_metals rfile ;;
  '(this, rfile) <- read this _PopII_SNII_Fe rfile ;;
  '(this, rfile) <- read this _PopII_SNII_Mg rfile ;;
  '(this, rfile) <- read this _PopII_SNIa_energy rfile ;;
  '(this, rfile) <- read this _PopII_SNIa_mass rfile ;;
  '(this, rfile) <- read this _PopII_SNIa_metals rfile ;;
  '(this, rfile) <- read this _PopII_SNIa_Fe rfile ;;
  '(this, rfile) <- read this _PopII_SNIa_Mg rfile ;;
  '(this, rfile) <- read this _PopII_SW_energy rfile ;;
  '(this, rfile) <- read this _PopII_SW_end_time rfile ;;
  '(this, rfile) <- read this _PopIII_SN_energy rfile ;;
  '(this, rfile) <- read this _PopIII_SN_mass rfile ;;
  '(this, rfile) <- read this _PopIII_SN_metals rfile ;;
  '(this, rfile) <- read this _PopIII_SN_Fe rfile ;;
  '(this, rfile) <- read this _PopIII_SN_Mg rfile ;;
  '(this, rfile) <- read this _PopIII_SW_energy rfile ;;
  '(this, rfile) <- read this _PopIII_SW_end_time rfile ;;
  Some (this, rfile).

End Persistence.

(** A fresh file, and a written file opened again for reading. *)
Definition empty_file : RestartFile := mkRestartFile [] [].
Definition reopen (rfile : RestartFile) : RestartFile :=
  mkRestartFile (contents rfile) [].

(** ** What the theorems ask of the collaborators *)

(** The contract of the quadrature, in the idealised form the model needs:
    [qag f a b tol] behaves as the integral of [f] over [[a, b]].  It is
    additive over adjacent intervals, non-negative on non-negative
    integrands, linear, blind to the integrand outside the interval, and
    positive over the delay-time window for an integrand that is positive
    inside it ([initialize] divides by two such integrals). *)
Record qag_contract (qag : (R -> R) -> R -> R -> R -> R) : Prop := {
  qag_chasles : forall f a b c tol,
    a <= b -> b <= c -> qag f a c tol = qag f a b tol + qag f b c tol;
  qag_nonneg : forall f a b tol,
    a <= b -> (forall x, a <= x <= b -> 0 <= f x) -> 0 <= qag f a b tol;
  qag_linear : forall f g k l a b tol,
    qag (fun x => k * f x + l * g x) a b tol =
    k * qag f a b tol + l * qag g a b tol;
  qag_ext : forall f g a b tol,
    (forall x, a <= x <= b -> f x = g x) -> qag f a b tol = qag g a b tol;
  qag_window : forall f tol,
    (forall x, 0.03 < x < 13.6 -> 0 < f x) -> 0 < qag f 0.03 13.6 tol
}.

(** The contract as the quadrature states it: the result lies within the
    requested tolerance, absolute or relative, of the integral.  [exact]
    stands for the integral itself. *)
Record qag_within_tolerance (qag exact : (R -> R) -> R -> R -> R -> R)
    : Prop := {
  tolerance_exact : qag_contract exact;
  tolerance_error : forall f a b tol,
    0 <= tol ->
    Rabs (qag f a b tol - exact f a b tol)
    <= tol * Rmax 1 (Rabs (exact f a b tol))
}.

(** Successive elements of a list of knots. *)
Definition strictly_increasing (l : list R) : Prop :=
  forall i, (S i < length l)%nat -> nth i l 0 < nth (S i) l 0.

Definition non_decreasing (l : list R) : Prop :=
  forall i, (S i < length l)%nat -> nth i l 0 <= nth (S i) l 0.

Definition non_increasing (l : list R) : Prop :=
  forall i, (S i < length l)%nat -> nth (S i) l 0 <= nth i l 0.

(** An interpolator returns, at a knot, the ordinate of that knot. *)
Definition interpolates (eval : GSLInterpolator -> R -> R) : Prop :=
  forall s i,
    strictly_increasing (sp_x s) ->
    length (sp_y s) = length (sp_x s) ->
    (i < length (sp_x s))%nat ->
    eval s (nth i (sp_x s) 0) = nth i (sp_y s) 0.

(** Reading back the dump of an interpolator yields that interpolator and
    leaves the rest of the file. *)
Definition codec_roundtrip (spline_dump : GSLInterpolator -> list value)
    (spline_create : list value -> option (GSLInterpolator * list value))
    : Prop :=
  forall s rest, spline_create (spline_dump s ++ rest) = Some (s, rest).

(** ** Reference collaborators

    Simple implementations of the three collaborators.  They are not part of
    the class; they show that the hypotheses above can be met and give the
    theorems concrete instances to run on. *)

(** A Riemann sum with unit step: the integrand is sampled at the integers
    of [(a, b]], which are the [n] integers from [up a] on. *)
Fixpoint grid_sum (f : R -> R) (lo : Z) (n : nat) : R :=
  match n with
  | O => 0
  | S n' => f (IZR lo) + grid_sum f (lo + 1) n'
  end.

Definition grid_qag (f : R -> R) (a b tol : R) : R :=
  grid_sum f (up a) (Z.to_nat (up b - up a)).

(** A quadrature that is off whenever the lower limit is positive, by half
    the tolerance or by half the tolerance relative to the result, whichever
    is smaller: it stays within tolerance of [grid_qag], absolutely and
    relatively, without being additive. *)
Definition biased_qag (f : R -> R) (a b tol : R) : R :=
  let I := grid_qag f a b tol in
  I + (if 0 <? a then tol / 2 * Rmin 1 (Rabs I) else 0).

(** Piecewise linear interpolation through the knots; the last segment
    extends to the right and the first to the left. *)
Fixpoint linear_interp (xs ys : list R) (x : R) : R :=
  match xs, ys with
  | x0 :: ((x1 :: xs'') as xs'), y0 :: ((y1 :: _) as ys') =>
      match xs'' with
      | [] => y0 + (x - x0) / (x1 - x0) * (y1 - y0)
      | _ :: _ =>
          if Rlt_dec x x1 then y0 + (x - x0) / (x1 - x0) * (y1 - y0)
          else linear_interp xs' ys' x
      end
  | [_], y0 :: _ => y0
  | _, _ => 0
  end.

Definition linear_eval (s : GSLInterpolator) (x : R) : R :=
  linear_interp (sp_x s) (sp_y s) x.

(** A dump of an interpolator: its kind, then each knot array behind its
    length. *)
Definition type_code (t : GSLInterpolatorType) : nat :=
  match t with
  | TypeGSLCubicSplineInterpolator => 0
  | TypeGSLLinearInterpolator => 1
  end.

Definition type_of_code (c : nat) : option GSLInterpolatorType :=
  match c with
  | 0%nat => Some TypeGSLCubicSplineInterpolator
  | 1%nat => Some TypeGSLLinearInterpolator
  | _ => None
  end.

Definition values_dump (s : GSLInterpolator) : list value :=
  Vuint (type_code (sp_type s)) ::
  Vuint (length (sp_x s)) :: map Vdouble (sp_x s) ++
  Vuint (length (sp_y s)) :: map Vdouble (sp_y s).

Fixpoint read_doubles (n : nat) (l : list value) {struct n}
    : option (list R * list value) :=
  match n with
  | O => Some ([], l)
  | S n' =>
      match l with
      | Vdouble d :: l' =>
          '(ds, rest) <- read_doubles n' l' ;; Some (d :: ds, rest)
      | _ => None
      end
  end.

Definition read_array (l : list value) : option (list R * list value) :=
  match l with
  | Vuint n :: l' => read_doubles n l'
  | _ => None
  end.

Definition values_create (l : list value)
    : option (GSLInterpolator * list value) :=
  match l with
  | Vuint c :: l' =>
      type <- type_of_code c ;;
      '(xs, l'') <- read_array l' ;;
      '(ys, rest) <- read_array l'' ;;
      Some (mkInterpolator type xs ys, rest)
  | _ => None
  end.

(** An object before construction, with some content in every member. *)
Definition blank : DiscreteStellarFeedback :=
  mkObject (fun _ => 0)
           (fun _ => mkInterpolator TypeGSLLinearInterpolator [] []).

(** ** Closed forms used to state what [initialize] builds *)

(** The values the loop variable of [for(t = t0; ...; t += step)] takes in
    its first [n] iterations. *)
Fixpoint ramp (t0 step : R) (n : nat) : list R :=
  match n with
  | O => []
  | S n' => t0 :: ramp (t0 + step) step n'
  end.

(** The value of the loop variable after [n] iterations. *)
Fixpoint advance (t0 step : R) (n : nat) : R :=
  match n with
  | O => t0
  | S n' => advance (t0 + step) step n'
  end.

Section Built.

Variable qag : (R -> R) -> R -> R -> R -> R.
Variable eval : GSLInterpolator -> R -> R.

(** The object [initialize] builds, with the two loops replaced by the lists
    of knots they produce ([initialize_built] below proves that this is the
    result of [initialize]). *)
Definition built (this : DiscreteStellarFeedback) : DiscreteStellarFeedback :=
  let this := normalize_delay qag (integrate_IMFs qag (set_parameters this)) in
  let g := fun t => qag (PopII_SNIa_delay this) 0.03 (pow 10 t) 1e-8 in
  let this := this <| _PopII_SNIa_delay_spline :->
    mkInterpolator TypeGSLCubicSplineInterpolator
      ((-2 + g (log10 0.03)) ::
         ramp (log10 0.03) 0.1 27 ++ [log10 13.6; log10 13.8])
      (0 :: map g (ramp (log10 0.03) 0.1 27) ++ [1; 1]) |> in
  let h := fun m => qag (PopIII_IMF this) (pow 10 m) 500 1e-8 in
  let this := this <| _PopIII_IMF_spline :->
    mkInterpolator TypeGSLLinearInterpolator
      (-2 :: ramp (log10 0.7) 0.01 286 ++ [log10 500; 3])
      (qag (PopIII_IMF this) 0 500 1e-8 ::
         map h (ramp (log10 0.7) 0.01 286) ++ [0; 0]) |> in
  let this := this <| _PopII_lifetime_spline :->
    mkInterpolator TypeGSLCubicSplineInterpolator
      PopII_lifetime_ms PopII_lifetime_ts |> in
  let this := this <| _PopIII_lifetime_spline :->
    mkInterpolator TypeGSLCubicSplineInterpolator
      PopIII_lifetime_ms PopIII_lifetime_ts |> in
  let this := this <| _PopIII_E_SN_spline :->
    mkInterpolator TypeGSLLinearInterpolator ms Es |> in
  let this := this <| _PopIII_Eint :=
    qag (PopIII_EIMF eval this) this.[_PopIII_M_SN_low] this.[_PopIII_M_upp]
        1e-8 |> in
  set_feedback_values this.

End Built.

(** * Proofs

    ** Logarithms, powers and the bounds of the two loops *)

Lemma ln10_pos : 0 < ln 10.
Proof. rewrite <- ln_1. apply ln_increasing; lra. Qed.

Lemma Rltb_true x y : x < y -> (x <? y) = true.
Proof. intros H. unfold Rltb. destruct (Rlt_dec x y); [reflexivity | contradiction]. Qed.

Lemma Rltb_false x y : ~ x < y -> (x <? y) = false.
Proof. intros H. unfold Rltb. destruct (Rlt_dec x y); [contradiction | reflexivity]. Qed.

Lemma Rgtb_true x y : y < x -> (x >? y) = true.
Proof. apply Rltb_true. Qed.

Lemma Rgtb_false x y : ~ y < x -> (x >? y) = false.
Proof. apply Rltb_false. Qed.

Lemma pow_pos_base x y : 0 < x -> pow x y = Rpower x y.
Proof. intros H. unfold pow. destruct (Rlt_dec 0 x); [reflexivity | contradiction]. Qed.

Lemma pow10_log10 a : 0 < a -> pow 10 (log10 a) = a.
Proof.
  intros Ha. rewrite pow_pos_base by lra. unfold Rpower, log10.
  replace (ln a / ln 10 * ln 10) with (ln a).
  - apply exp_ln, Ha.
  - field. apply Rgt_not_eq, ln10_pos.
Qed.

Lemma pow10_le s t : s <= t -> pow 10 s <= pow 10 t.
Proof.
  intros H. rewrite !pow_pos_base by lra.
  destruct H as [H | ->]; [left; apply Rpower_lt; lra | right; reflexivity].
Qed.

Lemma pow10_pos t : 0 < pow 10 t.
Proof. rewrite pow_pos_base by lra. apply exp_pos. Qed.

Lemma log10_lt a b : 0 < a -> a < b -> log10 a < log10 b.
Proof.
  intros Ha Hab. unfold log10. apply Rmult_lt_compat_r.
  - apply Rinv_0_lt_compat, ln10_pos.
  - apply ln_increasing; assumption.
Qed.

Lemma pow10_lt_log10 t b : 0 < b -> t < log10 b -> pow 10 t < b.
Proof.
  intros Hb H. pose proof (pow10_log10 b Hb) as E.
  rewrite pow_pos_base in * by lra. rewrite <- E. apply Rpower_lt; lra.
Qed.

Lemma pow10_ge_log10 t a : 0 < a -> log10 a <= t -> a <= pow 10 t.
Proof.
  intros Ha H. pose proof (pow10_le _ _ H) as L.
  rewrite (pow10_log10 a Ha) in L. exact L.
Qed.

(** [log10 a + k/n < log10 b] from a comparison of integer powers. *)
Lemma log10_gap_lt a b (k n : nat) :
  0 < a -> 0 < b -> (0 < n)%nat -> a ^ n * 10 ^ k < b ^ n ->
  log10 a + INR k / INR n < log10 b.
Proof.
  intros Ha Hb Hn H.
  assert (Hn' : 0 < INR n) by (apply lt_0_INR, Hn).
  assert (H10 := ln10_pos).
  apply ln_increasing in H.
  2:{ apply Rmult_lt_0_compat; apply pow_lt; lra. }
  rewrite ln_mult in H by (apply pow_lt; lra).
  rewrite !ln_pow in H by lra.
  unfold log10.
  apply Rmult_lt_reg_r with (INR n * ln 10).
  - apply Rmult_lt_0_compat; assumption.
  - replace ((ln a / ln 10 + INR k / INR n) * (INR n * ln 10))
      with (INR n * ln a + INR k * ln 10) by (field; split; lra).
    replace (ln b / ln 10 * (INR n * ln 10)) with (INR n * ln b)
      by (field; lra).
    exact H.
Qed.

Lemma log10_gap_le a b (k n : nat) :
  0 < a -> 0 < b -> (0 < n)%nat -> b ^ n <= a ^ n * 10 ^ k ->
  log10 b <= log10 a + INR k / INR n.
Proof.
  intros Ha Hb Hn H.
  assert (Hn' : 0 < INR n) by (apply lt_0_INR, Hn).
  assert (H10 := ln10_pos).
  assert (H' : ln (b ^ n) <= ln (a ^ n * 10 ^ k)).
  { destruct H as [H | H]; [left; apply ln_increasing; [apply pow_lt; lra | exact H] | right; rewrite H; reflexivity]. }
  rewrite ln_mult in H' by (apply pow_lt; lra).
  rewrite !ln_pow in H' by lra.
  unfold log10.
  apply Rmult_le_reg_r with (INR n * ln 10).
  - apply Rmult_lt_0_compat; assumption.
  - replace ((ln a / ln 10 + INR k / INR n) * (INR n * ln 10))
      with (INR n * ln a + INR k * ln 10) by (field; split; lra).
    replace (ln b / ln 10 * (INR n * ln 10)) with (INR n * ln b)
      by (field; lra).
    exact H'.
Qed.

(** The delay-time loop: 27 samples fit below [log10(13.6)], a 28th does not. *)
Lemma delay_grid_last : log10 0.03 + 26 * 0.1 < log10 13.6.
Proof.
  replace (26 * 0.1) with (INR 26 / INR 10) by (simpl; lra).
  apply log10_gap_lt; first [lra | lia].
Qed.

Lemma delay_grid_stop : log10 13.6 <= log10 0.03 + 27 * 0.1.
Proof.
  replace (27 * 0.1) with (INR 27 / INR 10) by (simpl; lra).
  apply log10_gap_le; first [lra | lia].
Qed.

Lemma IMF_grid_last : log10 0.7 + 285 * 0.01 < log10 500.
Proof.
  replace (285 * 0.01) with (INR 285 / INR 100).
  2:{ rewrite !INR_IZR_INZ. simpl. lra. }
  apply log10_gap_lt; first [lra | lia].
Qed.

Lemma IMF_grid_stop : log10 500 <= log10 0.7 + 286 * 0.01.
Proof.
  replace (286 * 0.01) with (INR 286 / INR 100).
  2:{ rewrite !INR_IZR_INZ. simpl. lra. }
  apply log10_gap_le; first [lra | lia].
Qed.

(** ** Arrays *)

Lemma store_fresh (pre rest : array) c v :
  store (pre ++ c :: rest) (length pre) v = Some ((pre ++ [Some v]) ++ rest).
Proof.
  unfold store.
  assert (H : (length pre <? length (pre ++ c :: rest))%nat = true).
  { apply Nat.ltb_lt. rewrite length_app. simpl. lia. }
  rewrite H. f_equal. rewrite <- app_assoc. simpl.
  induction pre as [| p pre IH]; simpl; [reflexivity | now rewrite IH].
Qed.

Lemma store_head c (a : array) v : store (c :: a) 0 v = Some (Some v :: a).
Proof. reflexivity. Qed.

Lemma read_block_all (l : list R) (rest : array) :
  read_block (map Some l ++ rest) (length l) = Some l.
Proof.
  induction l as [| x l IH]; simpl; [reflexivity | now rewrite IH].
Qed.

Lemma create_all type (xs ys : list R) n :
  length xs = n -> length ys = n ->
  create type (array_of xs) (array_of ys) n = Some (mkInterpolator type xs ys).
Proof.
  intros Hx Hy. unfold create, array_of.
  rewrite <- (app_nil_r (map Some xs)), <- (app_nil_r (map Some ys)).
  rewrite <- Hx at 1. rewrite read_block_all. rewrite <- Hy.
  rewrite read_block_all. reflexivity.
Qed.

(** ** The loop variable *)

Lemma ramp_length t0 step n : length (ramp t0 step n) = n.
Proof. revert t0. induction n; intros; simpl; [reflexivity | now rewrite IHn]. Qed.

Lemma ramp_nth t0 step n k d :
  (k < n)%nat -> nth k (ramp t0 step n) d = t0 + INR k * step.
Proof.
  revert t0 k. induction n as [| n IH]; intros t0 k Hk; [lia |].
  destruct k as [| k].
  - simpl. lra.
  - cbn [ramp nth]. rewrite IH by lia. rewrite S_INR. lra.
Qed.

Lemma advance_eq t0 step n : advance t0 step n = t0 + INR n * step.
Proof.
  revert t0. induction n as [| n IH]; intros t0.
  - simpl. lra.
  - cbn [advance]. rewrite IH, S_INR. lra.
Qed.

Lemma ramp_In t0 step n t :
  In t (ramp t0 step n) -> exists k, (k < n)%nat /\ t = t0 + INR k * step.
Proof.
  intros H. destruct (In_nth _ _ 0 H) as [k [Hk E]].
  rewrite ramp_length in Hk. exists k. split; [exact Hk |].
  rewrite <- E. apply ramp_nth, Hk.
Qed.

(** With a positive step the samples lie below the bound as soon as the last
    one does. *)
Lemma ramp_below t0 step bound n :
  0 < step -> t0 + INR (n - 1) * step < bound ->
  Forall (fun t => t < bound) (ramp t0 step n).
Proof.
  intros Hs Hlast. apply Forall_forall. intros t Ht.
  destruct (ramp_In _ _ _ _ Ht) as [k [Hk ->]].
  apply Rle_lt_trans with (t0 + INR (n - 1) * step); [| exact Hlast].
  apply Rplus_le_compat_l, Rmult_le_compat_r; [lra |].
  apply le_INR. lia.
Qed.

(** ** The sampling loops

    Both loops of [initialize] have the same body: cell [i] of the first
    array receives the loop variable, cell [i] of the second the value [g]
    of it, and [i] moves on.  Started on arrays whose first [i] cells are
    written, [n] iterations write the next [n] cells. *)
Lemma for_lt_fill (g : R -> R) (bound step : R) :
  forall (n fuel : nat) (t : R) (pre_x pre_y : array) (r : nat),
    (n <= fuel)%nat -> (n <= r)%nat -> length pre_y = length pre_x ->
    Forall (fun t => t < bound) (ramp t step n) ->
    ~ advance t step n < bound ->
    for_lt fuel bound step
      (fun t '(i, xs, ys) =>
         xs <- store xs i t ;;
         ys <- store ys i (g t) ;;
         Some (S i, xs, ys))
      t (length pre_x, pre_x ++ repeat None r, pre_y ++ repeat None r)
    = Some ((length pre_x + n)%nat,
            (pre_x ++ map Some (ramp t step n)) ++ repeat None (r - n),
            (pre_y ++ map (fun t => Some (g t)) (ramp t step n))
              ++ repeat None (r - n)).
Proof.
  set (body := fun (t : R) (st : nat * array * array) => _).
  induction n as [| n IH]; intros fuel t pre_x pre_y r Hf Hr Hlen Hin Hout.
  - cbn [ramp advance map] in *.
    destruct fuel; cbn [for_lt];
      (destruct (Rlt_dec t bound); [contradiction |]);
      rewrite Nat.add_0_r, Nat.sub_0_r, !app_nil_r; reflexivity.
  - destruct fuel as [| fuel]; [lia |]. destruct r as [| r]; [lia |].
    cbn [ramp advance map] in *. inversion Hin as [| ? ? Ht Hin']; subst.
    cbn [for_lt]. destruct (Rlt_dec t bound); [| contradiction].
    cbn [repeat]. unfold body at 1. cbv beta iota.
    rewrite store_fresh. cbn [obind].
    rewrite <- Hlen at 1. rewrite store_fresh. cbn [obind].
    replace (S (length pre_x)) with (length (pre_x ++ [Some t]))
      by (rewrite length_app; simpl; lia).
    rewrite (IH fuel (t + step) (pre_x ++ [Some t]) (pre_y ++ [Some (g t)]) r);
      try lia; try assumption.
    + rewrite length_app. cbn [length]. cbn [Nat.sub].
      rewrite <- !(app_assoc pre_x), <- !(app_assoc pre_y). cbn [app].
      replace (length pre_x + 1 + n)%nat with (length pre_x + S n)%nat by lia.
      reflexivity.
    + rewrite !length_app. simpl. lia.
Qed.

(** ** The blocks of [initialize] that fill arrays *)

Section Blocks.

Variable qag : (R -> R) -> R -> R -> R -> R.

(** The knots of the cumulative SNIa delay time spline, for the cumulative
    value [g] at a log-time. *)
Lemma init_SNIa_delay_spline_closed this :
  let g := fun t => qag (PopII_SNIa_delay this) 0.03 (pow 10 t) 1e-8 in
  init_SNIa_delay_spline qag this =
  Some (this <| _PopII_SNIa_delay_spline :->
          mkInterpolator TypeGSLCubicSplineInterpolator
            ((-2 + g (log10 0.03)) ::
               ramp (log10 0.03) 0.1 27 ++ [log10 13.6; log10 13.8])
            (0 :: map g (ramp (log10 0.03) 0.1 27) ++ [1; 1]) |>).
Proof.
  intros g. unfold init_SNIa_delay_spline. cbv zeta.
  change (new_array 30) with (@None R :: repeat None 29).
  rewrite !store_head. cbn [obind].
  change (for_lt 30 (log10 13.6) 0.1 ?b (log10 0.03)
            (1%nat, Some (-2) :: repeat None 29, Some 0 :: repeat None 29))
    with (for_lt 30 (log10 13.6) 0.1 b (log10 0.03)
            (length [Some (-2)], [Some (-2)] ++ repeat None 29,
             [Some 0] ++ repeat None 29)).
  pose proof (for_lt_fill g (log10 13.6) 0.1 27 30 (log10 0.03)
                [Some (-2)] [Some 0] 29) as L.
  cbv beta delta [g] in L. rewrite L; clear L.
  - reflexivity.
  - lia.
  - lia.
  - reflexivity.
  - apply ramp_below; [lra |]. change (INR (27 - 1)) with (INR 26).
    replace (INR 26) with 26 by (simpl; lra). apply delay_grid_last.
  - rewrite advance_eq. replace (INR 27) with 27 by (simpl; lra).
    apply Rle_not_lt, delay_grid_stop.
Qed.

(** The knots of the cumulative PopIII IMF spline, for the survival value
    [h] at a log-mass. *)
Lemma init_PopIII_IMF_spline_closed this :
  this.[_PopIII_M_low] = 0.7 -> this.[_PopIII_M_upp] = 500 ->
  let h := fun m => qag (PopIII_IMF this) (pow 10 m) 500 1e-8 in
  init_PopIII_IMF_spline qag this =
  Some (this <| _PopIII_IMF_spline :->
          mkInterpolator TypeGSLLinearInterpolator
            (-2 :: ramp (log10 0.7) 0.01 286 ++ [log10 500; 3])
            (qag (PopIII_IMF this) 0 500 1e-8 ::
               map h (ramp (log10 0.7) 0.01 286) ++ [0; 0]) |>).
Proof.
  intros Hlow Hupp h. unfold init_PopIII_IMF_spline. cbv zeta.
  rewrite Hlow, Hupp.
  change (new_array 289) with (@None R :: repeat None 288).
  rewrite !store_head. cbn [obind].
  change (for_lt 289 (log10 500) 0.01 ?b (log10 0.7)
            (1%nat, Some (-2) :: repeat None 288, ?c :: repeat None 288))
    with (for_lt 289 (log10 500) 0.01 b (log10 0.7)
            (length [Some (-2)], [Some (-2)] ++ repeat None 288,
             [c] ++ repeat None 288)).
  pose proof (for_lt_fill h (log10 500) 0.01 286 289 (log10 0.7)
                [Some (-2)] [Some (qag (PopIII_IMF this) 0 500 1e-8)] 288)
    as L.
  cbv beta delta [h] in L. rewrite L; clear L.
  - reflexivity.
  - lia.
  - lia.
  - reflexivity.
  - apply ramp_below; [lra |]. change (INR (286 - 1)) with (INR 285).
    replace (INR 285) with 285 by (rewrite INR_IZR_INZ; simpl; lra).
    apply IMF_grid_last.
  - rewrite advance_eq.
    replace (INR 286) with 286 by (rewrite INR_IZR_INZ; simpl; lra).
    apply Rle_not_lt, IMF_grid_stop.
Qed.

End Blocks.

(** ** [initialize] runs and builds [built] *)

Section Init.
Variable qag : (R -> R) -> R -> R -> R -> R.
Variable eval : GSLInterpolator -> R -> R.

Lemma initialize_built this0 :
  initialize qag eval this0 = Some (built qag eval this0).
Proof.
  unfold initialize. cbv zeta.
  rewrite init_SNIa_delay_spline_closed. cbv zeta. cbn [obind].
  rewrite init_PopIII_IMF_spline_closed by reflexivity. cbv zeta. cbn [obind].
  unfold init_lifetime_splines.
  rewrite !create_all by reflexivity. cbv zeta. cbn [obind].
  unfold init_PopIII_E_SN.
  rewrite !create_all by reflexivity. cbv zeta. cbn [obind].
  reflexivity.
Qed.
End Init.

(** ** The densities, on any object *)

Lemma PopII_IMF_sub1_pos m : 0 < m -> 0 < PopII_IMF_sub1 m.
Proof.
  intros Hm. unfold PopII_IMF_sub1. cbv zeta.
  apply Rdiv_lt_0_compat; [apply exp_pos | exact Hm].
Qed.

Lemma PopII_IMF_outside this m :
  m <= this.[_PopII_M_low] \/ this.[_PopII_M_upp] <= m -> PopII_IMF this m = 0.
Proof.
  intros H. unfold PopII_IMF.
  destruct H as [H | H].
  - rewrite Rgtb_false by lra. reflexivity.
  - rewrite (Rltb_false m) by lra. rewrite andb_false_r. reflexivity.
Qed.

Lemma PopII_IMF_nonneg this m :
  0 <= this.[_PopII_M_low] -> 0 <= this.[_PopII_fac_IMF] ->
  0 <= PopII_IMF this m.
Proof.
  intros Hlow Hfac. unfold PopII_IMF.
  unfold Rgtb at 1. unfold Rltb at 1.
  destruct (Rlt_dec this.[_PopII_M_low] m) as [Hm |]; [| cbn; lra].
  unfold Rltb at 1. destruct (Rlt_dec m this.[_PopII_M_upp]); [| cbn; lra].
  cbn [andb]. unfold Rltb. destruct (Rlt_dec m 1).
  - apply Rmult_le_pos; [exact Hfac |]. left. apply PopII_IMF_sub1_pos. lra.
  - rewrite pow_pos_base by lra. left. apply exp_pos.
Qed.

Lemma PopIII_IMF_outside this m :
  m <= this.[_PopIII_M_low] \/ this.[_PopIII_M_upp] <= m ->
  PopIII_IMF this m = 0.
Proof.
  intros H. unfold PopIII_IMF.
  destruct H as [H | H].
  - rewrite Rgtb_false by lra. reflexivity.
  - rewrite (Rltb_false m) by lra. rewrite andb_false_r. reflexivity.
Qed.

Lemma PopIII_IMF_nonneg this m :
  0 <= this.[_PopIII_M_low] -> 0 <= PopIII_IMF this m.
Proof.
  intros Hlow. unfold PopIII_IMF.
  unfold Rgtb at 1. unfold Rltb at 1.
  destruct (Rlt_dec this.[_PopIII_M_low] m) as [Hm |]; [| cbn; lra].
  unfold Rltb at 1. destruct (Rlt_dec m this.[_PopIII_M_upp]); [| cbn; lra].
  cbn [andb]. cbv zeta.
  match goal with |- 0 <= (if ?c >? 0 then _ else _) => set (IMF := c) end.
  unfold Rgtb, Rltb. destruct (Rlt_dec 0 IMF) as [HI |]; [| lra].
  left. apply Rdiv_lt_0_compat; lra.
Qed.

Lemma PopII_SNIa_delay2_nonneg this t : 0 <= PopII_SNIa_delay2 this t.
Proof.
  unfold PopII_SNIa_delay2. cbv zeta.
  match goal with |- 0 <= (if ?c >? 0 then _ else _) => set (delay := c) end.
  unfold Rgtb, Rltb. destruct (Rlt_dec 0 delay); lra.
Qed.

Lemma PopII_SNIa_delay2_before this t :
  0 <= this.[_PopII_SNIa_delay_norm2] -> t <= 0.03 ->
  PopII_SNIa_delay2 this t = 0.
Proof.
  intros Hn Ht. unfold PopII_SNIa_delay2. cbv zeta.
  rewrite (Rltb_true t 0.25) by lra.
  unfold Rgtb, Rltb.
  destruct (Rlt_dec 0 _) as [H |]; [| reflexivity].
  exfalso.
  assert (E : exp ((t - 0.25) / 0.1) <= exp ((0.03 - 0.25) / 0.1)).
  { destruct Ht as [Ht | ->]; [left; apply exp_increasing; lra | right; reflexivity]. }
  nra.
Qed.

Lemma PopII_SNIa_delay1_window this t :
  0 <= this.[_PopII_SNIa_delay_norm1] -> 0.03 <= t <= 13.6 ->
  0 <= PopII_SNIa_delay1 this t.
Proof.
  intros Hn Ht. unfold PopII_SNIa_delay1. cbv zeta.
  apply Rmult_le_pos; [| left; apply exp_pos].
  apply Rmult_le_pos; [| lra]. apply Rmult_le_pos; lra.
Qed.

Lemma PopII_SNIa_delay1_outside this t :
  0 < this.[_PopII_SNIa_delay_norm1] -> t < 0.03 \/ 13.6 < t ->
  PopII_SNIa_delay1 this t < 0.
Proof.
  intros Hn Ht. unfold PopII_SNIa_delay1. cbv zeta.
  match goal with |- _ * exp ?e < 0 => pose proof (exp_pos e) as He; set (E := exp e) in * end.
  assert (H : (t - 0.03) * (13.6 - t) < 0) by (destruct Ht; nra).
  assert (H' : this.[_PopII_SNIa_delay_norm1] * ((t - 0.03) * (13.6 - t)) < 0) by nra.
  rewrite Rmult_assoc. nra.
Qed.

Lemma PopII_SNIa_delay_window this t :
  0 <= this.[_PopII_SNIa_delay_norm1] -> 0.03 <= t <= 13.6 ->
  0 <= PopII_SNIa_delay this t.
Proof.
  intros Hn Ht. unfold PopII_SNIa_delay.
  pose proof (PopII_SNIa_delay1_window this t Hn Ht).
  pose proof (PopII_SNIa_delay2_nonneg this t). lra.
Qed.

(** Both parts of the delay time distribution vanish at the start of the
    window. *)
Lemma PopII_SNIa_delay1_start this : PopII_SNIa_delay1 this 0.03 = 0.
Proof.
  unfold PopII_SNIa_delay1. cbv zeta.
  replace (0.03 - 0.03) with 0 by lra. rewrite Rmult_0_r. ring.
Qed.

Lemma PopII_SNIa_delay2_start this : PopII_SNIa_delay2 this 0.03 = 0.
Proof.
  unfold PopII_SNIa_delay2. cbv zeta.
  rewrite (Rltb_true 0.03 0.25) by lra.
  rewrite Rminus_diag, Rmult_0_r.
  rewrite Rgtb_false by lra. reflexivity.
Qed.

(** The unnormalised parts are positive inside the window. *)
Lemma PopII_SNIa_delay1_inside this t :
  0 < this.[_PopII_SNIa_delay_norm1] -> 0.03 < t < 13.6 ->
  0 < PopII_SNIa_delay1 this t.
Proof.
  intros Hn Ht. unfold PopII_SNIa_delay1. cbv zeta.
  apply Rmult_lt_0_compat; [| apply exp_pos].
  apply Rmult_lt_0_compat; [| lra]. apply Rmult_lt_0_compat; lra.
Qed.

Lemma delay2_shape_inside t :
  0.03 < t < 13.6 ->
  0 < (if t <? 0.25 then exp ((t - 0.25) / 0.1) else exp ((0.25 - t) / 7))
      - exp ((0.03 - 0.25) / 0.1).
Proof.
  intros Ht. unfold Rltb. destruct (Rlt_dec t 0.25).
  - apply Rlt_0_minus, exp_increasing. lra.
  - apply Rlt_0_minus, exp_increasing. lra.
Qed.

(** [PopII_SNIa_delay2] is its norm times the clamped shape. *)
Lemma PopII_SNIa_delay2_scale this t :
  0 <= this.[_PopII_SNIa_delay_norm2] ->
  PopII_SNIa_delay2 this t =
  this.[_PopII_SNIa_delay_norm2] *
  PopII_SNIa_delay2 (this <| _PopII_SNIa_delay_norm2 := 1 |>) t.
Proof.
  intros Hn. unfold PopII_SNIa_delay2. cbv zeta.
  change ((this <| _PopII_SNIa_delay_norm2 := 1 |>).[_PopII_SNIa_delay_norm2])
    with 1.
  set (n := this.[_PopII_SNIa_delay_norm2]) in *.
  set (c := exp ((0.03 - 0.25) / 0.1)).
  assert (clamp : forall d,
            (if n * d >? 0 then n * d else 0) =
            n * (if 1 * d >? 0 then 1 * d else 0)).
  { intros d. unfold Rgtb, Rltb.
    destruct (Rlt_dec 0 (n * d)) as [H1 | H1],
             (Rlt_dec 0 (1 * d)) as [H2 | H2]; try ring.
    - exfalso. assert (0 <= n * (- d)) by (apply Rmult_le_pos; lra). lra.
    - assert (0 <= n * d) by (apply Rmult_le_pos; lra).
      replace (n * (1 * d)) with (n * d) by ring. lra. }
  destruct (t <? 0.25); apply clamp.
Qed.

Lemma PopII_SNIa_delay2_inside this t :
  0 < this.[_PopII_SNIa_delay_norm2] -> 0.03 < t < 13.6 ->
  0 < PopII_SNIa_delay2 this t.
Proof.
  intros Hn Ht. unfold PopII_SNIa_delay2. cbv zeta.
  pose proof (delay2_shape_inside t Ht) as Hs.
  set (n := this.[_PopII_SNIa_delay_norm2]) in *.
  destruct (t <? 0.25).
  - assert (0 < n * (exp ((t - 0.25) / 0.1) - exp ((0.03 - 0.25) / 0.1)))
      by (apply Rmult_lt_0_compat; lra).
    rewrite Rgtb_true; assumption.
  - assert (0 < n * (exp ((0.25 - t) / 7) - exp ((0.03 - 0.25) / 0.1)))
      by (apply Rmult_lt_0_compat; lra).
    rewrite Rgtb_true; assumption.
Qed.

Lemma PopII_SNIa_delay1_scale this t :
  PopII_SNIa_delay1 this t =
  this.[_PopII_SNIa_delay_norm1] *
  PopII_SNIa_delay1 (this <| _PopII_SNIa_delay_norm1 := 1 |>) t.
Proof.
  unfold PopII_SNIa_delay1. cbv zeta.
  change ((this <| _PopII_SNIa_delay_norm1 := 1 |>).[_PopII_SNIa_delay_norm1])
    with 1.
  change ((this <| _PopII_SNIa_delay_norm1 := 1 |>).[_PopII_SNIa_delay_mu])
    with this.[_PopII_SNIa_delay_mu].
  change ((this <| _PopII_SNIa_delay_norm1 := 1 |>).[_PopII_SNIa_delay_sigma])
    with this.[_PopII_SNIa_delay_sigma].
  ring.
Qed.

(** The normalization factor of the low mass part. *)
Lemma fac_IMF_gt_1 : 1 < 1 / PopII_IMF_sub1 1.
Proof.
  unfold PopII_IMF_sub1, log10. cbv zeta.
  rewrite ln_1. replace (0 / ln 10) with 0 by (unfold Rdiv; ring).
  match goal with |- 1 < 1 / (exp ?e / 1) => set (x := e) end.
  assert (Hx : x < 0) by (unfold x; lra).
  pose proof (exp_pos x) as Hp.
  assert (He : exp x < 1) by (rewrite <- exp_0; apply exp_increasing, Hx).
  replace (1 / (exp x / 1)) with (/ exp x) by (field; lra).
  rewrite <- Rinv_1 at 1. apply Rinv_lt_contravar; lra.
Qed.

(** ** Values of [log10] *)

Lemma log10_pow10 (k : nat) : log10 (10 ^ k) = INR k.
Proof.
  unfold log10. rewrite ln_pow by lra. field.
  apply Rgt_not_eq, ln10_pos.
Qed.

Lemma log10_inv a : 0 < a -> log10 (/ a) = - log10 a.
Proof. intros Ha. unfold log10. rewrite ln_Rinv by exact Ha. unfold Rdiv. ring. Qed.

Lemma log10_gt_m2 a : 0.01 < a -> -2 < log10 a.
Proof.
  intros Ha.
  replace (-2) with (log10 (/ 10 ^ 2)).
  - apply log10_lt; lra.
  - rewrite log10_inv by lra. rewrite log10_pow10. simpl. lra.
Qed.

Lemma log10_500_lt_3 : log10 500 < 3.
Proof.
  replace 3 with (log10 (10 ^ 3)) by (rewrite log10_pow10; simpl; lra).
  apply log10_lt; lra.
Qed.

(** ** Successive elements of a padded list of samples *)

Lemma nth_map_ramp (g : R -> R) t0 step n i :
  (i < n)%nat -> nth i (map g (ramp t0 step n)) 0 = g (t0 + INR i * step).
Proof.
  intros Hi. rewrite (nth_indep _ 0 (g 0)) by (rewrite length_map, ramp_length; exact Hi).
  rewrite map_nth, ramp_nth by exact Hi. reflexivity.
Qed.

Lemma successive_padded (rel : R -> R -> Prop) x (l : list R) a b :
  (0 < length l)%nat ->
  rel x (nth 0 l 0) ->
  (forall i, (S i < length l)%nat -> rel (nth i l 0) (nth (S i) l 0)) ->
  rel (nth (length l - 1) l 0) a ->
  rel a b ->
  forall i, (S i < length (x :: l ++ [a; b]))%nat ->
    rel (nth i (x :: l ++ [a; b]) 0) (nth (S i) (x :: l ++ [a; b]) 0).
Proof.
  intros Hl H0 Hs Ha Hb i Hi.
  cbn [length] in Hi. rewrite length_app in Hi. cbn [length] in Hi.
  destruct i as [| j].
  - cbn [nth]. rewrite app_nth1 by exact Hl. exact H0.
  - cbn [nth].
    destruct (Nat.lt_trichotomy (S j) (length l)) as [Hj | [Hj | Hj]].
    + rewrite !app_nth1 by lia. apply Hs, Hj.
    + rewrite app_nth1 by lia. rewrite (app_nth2 _ _ _ (n := S j)) by lia.
      rewrite Hj, Nat.sub_diag. cbn [nth].
      replace j with (length l - 1)%nat by lia. exact Ha.
    + assert (j = length l) as -> by lia.
      rewrite !app_nth2 by lia.
      rewrite Nat.sub_diag. replace (S (length l) - length l)%nat with 1%nat by lia.
      exact Hb.
Qed.

(** ** Consequences of the contract of the quadrature *)

Section Contract.

Variable qag : (R -> R) -> R -> R -> R -> R.
Hypothesis contract : qag_contract qag.

Lemma qag_empty f a tol : qag f a a tol = 0.
Proof.
  pose proof (qag_chasles qag contract f a a a tol (Rle_refl a) (Rle_refl a)).
  lra.
Qed.

(** The integral of a non-negative integrand grows with the upper limit and
    shrinks with the lower one. *)
Lemma qag_upper_mono f a b c tol :
  a <= b -> b <= c -> (forall x, a <= x <= c -> 0 <= f x) ->
  qag f a b tol <= qag f a c tol.
Proof.
  intros Hab Hbc Hf.
  rewrite (qag_chasles qag contract f a b c tol Hab Hbc).
  assert (0 <= qag f b c tol).
  { apply (qag_nonneg qag contract); [exact Hbc |]. intros x Hx. apply Hf. lra. }
  lra.
Qed.

Lemma qag_lower_mono f a b c tol :
  a <= b -> b <= c -> (forall x, a <= x <= c -> 0 <= f x) ->
  qag f b c tol <= qag f a c tol.
Proof.
  intros Hab Hbc Hf.
  rewrite (qag_chasles qag contract f a b c tol Hab Hbc).
  assert (0 <= qag f a b tol).
  { apply (qag_nonneg qag contract); [exact Hab |]. intros x Hx. apply Hf. lra. }
  lra.
Qed.

(** *** Normalization of the delay time distribution *)

(** If the two norms of [this] are the target fractions over the integrals
    of the unnormalised parts, the distribution integrates to one. *)
Lemma normalized_delay_integral this d1 d2 tol :
  d1 = qag (PopII_SNIa_delay1 (this <| _PopII_SNIa_delay_norm1 := 1 |>))
           0.03 13.6 tol ->
  d2 = qag (PopII_SNIa_delay2 (this <| _PopII_SNIa_delay_norm2 := 1 |>))
           0.03 13.6 tol ->
  this.[_PopII_SNIa_delay_norm1] = 0.4 / d1 ->
  this.[_PopII_SNIa_delay_norm2] = 0.6 / d2 ->
  0 < d1 /\ 0 < d2 /\ qag (PopII_SNIa_delay this) 0.03 13.6 tol = 1.
Proof.
  intros Hd1 Hd2 Hn1 Hn2.
  assert (P1 : 0 < d1).
  { rewrite Hd1. apply (qag_window qag contract). intros x Hx.
    apply PopII_SNIa_delay1_inside; [| exact Hx].
    change ((this <| _PopII_SNIa_delay_norm1 := 1 |>).[_PopII_SNIa_delay_norm1])
      with 1. lra. }
  assert (P2 : 0 < d2).
  { rewrite Hd2. apply (qag_window qag contract). intros x Hx.
    apply PopII_SNIa_delay2_inside; [| exact Hx].
    change ((this <| _PopII_SNIa_delay_norm2 := 1 |>).[_PopII_SNIa_delay_norm2])
      with 1. lra. }
  split; [exact P1 |]. split; [exact P2 |].
  assert (N2 : 0 <= this.[_PopII_SNIa_delay_norm2]).
  { rewrite Hn2. left. apply Rdiv_lt_0_compat; lra. }
  rewrite (qag_ext qag contract _
             (fun x => this.[_PopII_SNIa_delay_norm1] *
                         PopII_SNIa_delay1
                           (this <| _PopII_SNIa_delay_norm1 := 1 |>) x +
                       this.[_PopII_SNIa_delay_norm2] *
                         PopII_SNIa_delay2
                           (this <| _PopII_SNIa_delay_norm2 := 1 |>) x)).
  - rewrite (qag_linear qag contract). rewrite <- Hd1, <- Hd2, Hn1, Hn2.
    unfold Rdiv. rewrite !Rmult_assoc, !Rinv_l by lra. lra.
  - intros x _. unfold PopII_SNIa_delay.
    rewrite (PopII_SNIa_delay1_scale this x).
    rewrite (PopII_SNIa_delay2_scale this x N2). reflexivity.
Qed.

End Contract.

(** ** The densities read a few members only *)

Lemma PopII_SNIa_delay1_frame this this' t :
  this.[_PopII_SNIa_delay_mu] = this'.[_PopII_SNIa_delay_mu] ->
  this.[_PopII_SNIa_delay_sigma] = this'.[_PopII_SNIa_delay_sigma] ->
  this.[_PopII_SNIa_delay_norm1] = this'.[_PopII_SNIa_delay_norm1] ->
  PopII_SNIa_delay1 this t = PopII_SNIa_delay1 this' t.
Proof. intros E1 E2 E3. unfold PopII_SNIa_delay1. rewrite E1, E2, E3. reflexivity. Qed.

Lemma PopII_SNIa_delay2_frame this this' t :
  this.[_PopII_SNIa_delay_norm2] = this'.[_PopII_SNIa_delay_norm2] ->
  PopII_SNIa_delay2 this t = PopII_SNIa_delay2 this' t.
Proof. intros E. unfold PopII_SNIa_delay2. rewrite E. reflexivity. Qed.

Lemma PopIII_IMF_frame this this' m :
  this.[_PopIII_M_low] = this'.[_PopIII_M_low] ->
  this.[_PopIII_M_upp] = this'.[_PopIII_M_upp] ->
  this.[_PopIII_M1] = this'.[_PopIII_M1] ->
  this.[_PopIII_M2] = this'.[_PopIII_M2] ->
  this.[_PopIII_M3] = this'.[_PopIII_M3] ->
  this.[_PopIII_fac] = this'.[_PopIII_fac] ->
  this.[_PopIII_pw] = this'.[_PopIII_pw] ->
  PopIII_IMF this m = PopIII_IMF this' m.
Proof.
  intros E1 E2 E3 E4 E5 E6 E7. unfold PopIII_IMF.
  rewrite E1, E2, E3, E4, E5, E6, E7. reflexivity.
Qed.

(** ** The members of the built object *)

Section Built_facts.

Variable qag : (R -> R) -> R -> R -> R -> R.
Variable eval : GSLInterpolator -> R -> R.
Hypothesis contract : qag_contract qag.
Variable this0 : DiscreteStellarFeedback.

Let m := built qag eval this0.

Lemma built_delay_same this :
  this.[_PopII_SNIa_delay_mu] = m.[_PopII_SNIa_delay_mu] ->
  this.[_PopII_SNIa_delay_sigma] = m.[_PopII_SNIa_delay_sigma] ->
  this.[_PopII_SNIa_delay_norm1] = m.[_PopII_SNIa_delay_norm1] ->
  this.[_PopII_SNIa_delay_norm2] = m.[_PopII_SNIa_delay_norm2] ->
  forall a b tol,
    qag (PopII_SNIa_delay this) a b tol = qag (PopII_SNIa_delay m) a b tol.
Proof.
  intros E1 E2 E3 E4 a b tol. apply (qag_ext qag contract). intros x _.
  unfold PopII_SNIa_delay.
  rewrite (PopII_SNIa_delay1_frame this m x E1 E2 E3).
  rewrite (PopII_SNIa_delay2_frame this m x E4). reflexivity.
Qed.

Lemma built_norm1 :
  m.[_PopII_SNIa_delay_norm1] =
  0.4 / qag (PopII_SNIa_delay1 (m <| _PopII_SNIa_delay_norm1 := 1 |>))
            0.03 13.6 1e-8.
Proof.
  change (m.[_PopII_SNIa_delay_norm1])
    with (0.4 / qag (PopII_SNIa_delay1
                       (integrate_IMFs qag (set_parameters this0)))
                    0.03 13.6 1e-8).
  apply (f_equal (Rdiv 0.4)). apply (qag_ext qag contract). intros x _.
  apply PopII_SNIa_delay1_frame; reflexivity.
Qed.

Lemma built_norm2 :
  m.[_PopII_SNIa_delay_norm2] =
  0.6 / qag (PopII_SNIa_delay2 (m <| _PopII_SNIa_delay_norm2 := 1 |>))
            0.03 13.6 1e-8.
Proof.
  unfold m, built. cbv zeta.
  match goal with
  | |- context [normalize_delay qag ?P] => set (P0 := P)
  end.
  change ((set_feedback_values _).[_PopII_SNIa_delay_norm2])
    with (0.6 / qag (PopII_SNIa_delay2
                       (P0 <| _PopII_SNIa_delay_norm1 :=
                          0.4 / qag (PopII_SNIa_delay1 P0) 0.03 13.6 1e-8 |>))
                    0.03 13.6 1e-8).
  apply (f_equal (Rdiv 0.6)). apply (qag_ext qag contract). intros x _.
  apply PopII_SNIa_delay2_frame; reflexivity.
Qed.

Lemma built_normalized :
  0 < m.[_PopII_SNIa_delay_norm1] /\ 0 < m.[_PopII_SNIa_delay_norm2] /\
  qag (PopII_SNIa_delay m) 0.03 13.6 1e-8 = 1.
Proof.
  destruct (normalized_delay_integral qag contract m _ _ 1e-8
              eq_refl eq_refl built_norm1 built_norm2) as [P1 [P2 E]].
  split; [| split; [| exact E]].
  - rewrite built_norm1. apply Rdiv_lt_0_compat; lra.
  - rewrite built_norm2. apply Rdiv_lt_0_compat; lra.
Qed.

(** The two cumulative splines, in terms of the built object itself. *)
Lemma built_SNIa_delay_spline :
  let g := fun t => qag (PopII_SNIa_delay m) 0.03 (pow 10 t) 1e-8 in
  m.<_PopII_SNIa_delay_spline> =
  mkInterpolator TypeGSLCubicSplineInterpolator
    ((-2 + g (log10 0.03)) ::
       ramp (log10 0.03) 0.1 27 ++ [log10 13.6; log10 13.8])
    (0 :: map g (ramp (log10 0.03) 0.1 27) ++ [1; 1]).
Proof.
  intros g.
  set (A := normalize_delay qag (integrate_IMFs qag (set_parameters this0))).
  assert (E : forall t, qag (PopII_SNIa_delay A) 0.03 (pow 10 t) 1e-8 = g t).
  { intros t. apply built_delay_same; reflexivity. }
  change (m.<_PopII_SNIa_delay_spline>)
    with (mkInterpolator TypeGSLCubicSplineInterpolator
            ((-2 + qag (PopII_SNIa_delay A) 0.03 (pow 10 (log10 0.03)) 1e-8) ::
               ramp (log10 0.03) 0.1 27 ++ [log10 13.6; log10 13.8])
            (0 :: map (fun t => qag (PopII_SNIa_delay A) 0.03 (pow 10 t) 1e-8)
                      (ramp (log10 0.03) 0.1 27) ++ [1; 1])).
  rewrite E. rewrite (map_ext _ g E). reflexivity.
Qed.

Lemma built_PopIII_IMF_spline :
  let h := fun x => qag (PopIII_IMF m) (pow 10 x) 500 1e-8 in
  m.<_PopIII_IMF_spline> =
  mkInterpolator TypeGSLLinearInterpolator
    (-2 :: ramp (log10 0.7) 0.01 286 ++ [log10 500; 3])
    (qag (PopIII_IMF m) 0 500 1e-8 ::
       map h (ramp (log10 0.7) 0.01 286) ++ [0; 0]).
Proof.
  intros h.
  set (A := normalize_delay qag (integrate_IMFs qag (set_parameters this0))).
  set (B := A <| _PopII_SNIa_delay_spline :-> m.<_PopII_SNIa_delay_spline> |>).
  assert (E : forall a b,
             qag (PopIII_IMF B) a b 1e-8 = qag (PopIII_IMF m) a b 1e-8).
  { intros a b. apply (qag_ext qag contract). intros x _.
    apply PopIII_IMF_frame; reflexivity. }
  change (m.<_PopIII_IMF_spline>)
    with (mkInterpolator TypeGSLLinearInterpolator
            (-2 :: ramp (log10 0.7) 0.01 286 ++ [log10 500; 3])
            (qag (PopIII_IMF B) 0 500 1e-8 ::
               map (fun x => qag (PopIII_IMF B) (pow 10 x) 500 1e-8)
                   (ramp (log10 0.7) 0.01 286) ++ [0; 0])).
  rewrite E. rewrite (map_ext _ h (fun x => E (pow 10 x) 500)). reflexivity.
Qed.

End Built_facts.

(** ** The reference quadrature meets the contract *)

Lemma up_above a : a < IZR (up a) <= a + 1.
Proof. destruct (archimed a). lra. Qed.

Lemma up_mono a b : a <= b -> (up a <= up b)%Z.
Proof.
  intros Hab. destruct (Z.le_gt_cases (up a) (up b)) as [H | H]; [exact H |].
  exfalso. assert (H' : (up b + 1 <= up a)%Z) by lia.
  apply IZR_le in H'. rewrite plus_IZR in H'.
  pose proof (up_above a). pose proof (up_above b). lra.
Qed.

Lemma grid_sum_app f lo n1 n2 :
  grid_sum f lo (n1 + n2) =
  grid_sum f lo n1 + grid_sum f (lo + Z.of_nat n1) n2.
Proof.
  revert lo. induction n1 as [| n1 IH]; intros lo.
  - cbn [grid_sum Nat.add]. rewrite Z.add_0_r. lra.
  - cbn [grid_sum Nat.add]. rewrite IH.
    replace (lo + 1 + Z.of_nat n1)%Z with (lo + Z.of_nat (S n1))%Z by lia.
    lra.
Qed.

Lemma grid_sum_nonneg f lo n :
  (forall z, (lo <= z < lo + Z.of_nat n)%Z -> 0 <= f (IZR z)) ->
  0 <= grid_sum f lo n.
Proof.
  revert lo. induction n as [| n IH]; intros lo H.
  - cbn [grid_sum]. lra.
  - cbn [grid_sum].
    assert (0 <= f (IZR lo)) by (apply H; lia).
    assert (0 <= grid_sum f (lo + 1) n) by (apply IH; intros z Hz; apply H; lia).
    lra.
Qed.

Lemma grid_sum_pos f lo n :
  (0 < n)%nat ->
  (forall z, (lo <= z < lo + Z.of_nat n)%Z -> 0 < f (IZR z)) ->
  0 < grid_sum f lo n.
Proof.
  intros Hn H. destruct n as [| n]; [lia |]. cbn [grid_sum].
  assert (0 < f (IZR lo)) by (apply H; lia).
  assert (0 <= grid_sum f (lo + 1) n).
  { apply grid_sum_nonneg. intros z Hz. left. apply H. lia. }
  lra.
Qed.

Lemma grid_sum_ext f g lo n :
  (forall z, (lo <= z < lo + Z.of_nat n)%Z -> f (IZR z) = g (IZR z)) ->
  grid_sum f lo n = grid_sum g lo n.
Proof.
  revert lo. induction n as [| n IH]; intros lo H.
  - reflexivity.
  - cbn [grid_sum]. rewrite (H lo) by lia.
    rewrite (IH (lo + 1)%Z) by (intros z Hz; apply H; lia). reflexivity.
Qed.

Lemma grid_sum_linear f g k l lo n :
  grid_sum (fun x => k * f x + l * g x) lo n =
  k * grid_sum f lo n + l * grid_sum g lo n.
Proof.
  revert lo. induction n as [| n IH]; intros lo.
  - cbn [grid_sum]. lra.
  - cbn [grid_sum]. rewrite IH. lra.
Qed.

(** The points sampled for [[a, b]] lie in [(a, b]]. *)
Lemma grid_points a b z :
  (up a <= z < up a + Z.of_nat (Z.to_nat (up b - up a)))%Z ->
  a < IZR z <= b.
Proof.
  intros Hz.
  assert (H1 : (up a <= z)%Z) by lia.
  assert (H2 : (z + 1 <= up b)%Z) by lia.
  apply IZR_le in H1, H2. rewrite plus_IZR in H2.
  pose proof (up_above a). pose proof (up_above b). lra.
Qed.

Lemma grid_qag_contract : qag_contract grid_qag.
Proof.
  constructor.
  - intros f a b c tol Hab Hbc. unfold grid_qag.
    pose proof (up_mono a b Hab). pose proof (up_mono b c Hbc).
    replace (Z.to_nat (up c - up a))
      with (Z.to_nat (up b - up a) + Z.to_nat (up c - up b))%nat by lia.
    rewrite grid_sum_app. rewrite Z2Nat.id by lia.
    replace (up a + (up b - up a))%Z with (up b) by lia. reflexivity.
  - intros f a b tol Hab Hf. unfold grid_qag.
    apply grid_sum_nonneg. intros z Hz. apply Hf.
    pose proof (grid_points a b z Hz). lra.
  - intros f g k l a b tol. unfold grid_qag. apply grid_sum_linear.
  - intros f g a b tol H. unfold grid_qag.
    apply grid_sum_ext. intros z Hz. apply H.
    pose proof (grid_points a b z Hz). lra.
  - intros f tol Hf. unfold grid_qag.
    assert (E1 : up 0.03 = 1%Z) by (symmetry; apply tech_up; lra).
    assert (E2 : up 13.6 = 14%Z) by (symmetry; apply tech_up; lra).
    rewrite E1, E2. apply grid_sum_pos.
    + change (14 - 1)%Z with 13%Z. lia.
    + intros z Hz. apply Hf.
      assert (H1 : (1 <= z)%Z) by lia. assert (H2 : (z <= 13)%Z) by lia.
      apply IZR_le in H1, H2. lra.
Qed.

(** ** The reference interpolator passes through its knots *)

Lemma strictly_increasing_tail x l :
  strictly_increasing (x :: l) -> strictly_increasing l.
Proof. intros H i Hi. apply (H (S i)). simpl. lia. Qed.

Lemma strictly_increasing_le l i j :
  strictly_increasing l -> (i <= j)%nat -> (j < length l)%nat ->
  nth i l 0 <= nth j l 0.
Proof.
  intros H Hij Hj. induction j as [| j IH].
  - replace i with 0%nat by lia. lra.
  - destruct (Nat.eq_dec i (S j)) as [-> | Hne]; [lra |].
    assert (nth i l 0 <= nth j l 0) by (apply IH; lia).
    assert (nth j l 0 < nth (S j) l 0) by (apply H; lia).
    lra.
Qed.

Lemma linear_interp_step x0 x1 x2 xs y0 y1 ys x :
  linear_interp (x0 :: x1 :: x2 :: xs) (y0 :: y1 :: ys) x =
  if Rlt_dec x x1 then y0 + (x - x0) / (x1 - x0) * (y1 - y0)
  else linear_interp (x1 :: x2 :: xs) (y1 :: ys) x.
Proof. reflexivity. Qed.

Lemma linear_interp_knot : forall xs ys i,
  strictly_increasing xs -> length ys = length xs -> (i < length xs)%nat ->
  linear_interp xs ys (nth i xs 0) = nth i ys 0.
Proof.
  induction xs as [| x0 xs IH]; intros ys i Hinc Hlen Hi; [simpl in Hi; lia |].
  destruct ys as [| y0 ys]; [discriminate |].
  destruct xs as [| x1 xs].
  - destruct i; [reflexivity | simpl in Hi; lia].
  - destruct ys as [| y1 ys]; [discriminate |].
    assert (H01 : x0 < x1) by (apply (Hinc 0%nat); simpl; lia).
    assert (Hseg : forall x, x = x0 \/ x = x1 -> 
              y0 + (x - x0) / (x1 - x0) * (y1 - y0) = (if Req_dec_T x x0 then y0 else y1)).
    { intros x [-> | ->].
      - destruct (Req_dec_T x0 x0); [| contradiction]. unfold Rdiv. rewrite Rminus_diag. ring.
      - destruct (Req_dec_T x1 x0); [lra |]. field. lra. }
    destruct xs as [| x2 xs].
    + cbn [linear_interp].
      destruct i as [| [| i]]; [| | simpl in Hi; lia]; cbn [nth].
      * rewrite Hseg by (left; reflexivity). destruct (Req_dec_T x0 x0); [reflexivity | contradiction].
      * rewrite Hseg by (right; reflexivity). destruct (Req_dec_T x1 x0); [lra | reflexivity].
    + destruct i as [| i].
      * cbn [nth]. rewrite linear_interp_step.
        destruct (Rlt_dec x0 x1); [| contradiction].
        rewrite Hseg by (left; reflexivity). destruct (Req_dec_T x0 x0); [reflexivity | contradiction].
      * change (nth (S i) (x0 :: x1 :: x2 :: xs) 0) with (nth i (x1 :: x2 :: xs) 0).
        change (nth (S i) (y0 :: y1 :: ys) 0) with (nth i (y1 :: ys) 0).
        assert (Hge : x1 <= nth i (x1 :: x2 :: xs) 0).
        { change x1 with (nth 0 (x1 :: x2 :: xs) 0) at 1.
          apply strictly_increasing_le;
            [eapply strictly_increasing_tail, Hinc | lia | simpl in *; lia]. }
        rewrite linear_interp_step.
        destruct (Rlt_dec (nth i (x1 :: x2 :: xs) 0) x1); [lra |].
        apply IH.
        -- eapply strictly_increasing_tail, Hinc.
        -- simpl in *. lia.
        -- simpl in *. lia.
Qed.

Lemma linear_eval_interpolates : interpolates linear_eval.
Proof.
  intros s i Hinc Hlen Hi. unfold linear_eval.
  apply linear_interp_knot; assumption.
Qed.

(** ** The reference dump is read back *)

Lemma read_doubles_written l rest :
  read_doubles (length l) (map Vdouble l ++ rest) = Some (l, rest).
Proof.
  induction l as [| d l IH]; [reflexivity |].
  cbn [length map app read_doubles]. rewrite IH. reflexivity.
Qed.

Lemma values_codec_roundtrip : codec_roundtrip values_dump values_create.
Proof.
  intros [type xs ys] rest. unfold values_dump, values_create.
  cbn [sp_type sp_x sp_y app].
  assert (E : type_of_code (type_code type) = Some type) by (destruct type; reflexivity).
  rewrite E. cbn [obind]. unfold read_array at 1.
  rewrite <- app_assoc. rewrite read_doubles_written. cbn [obind app].
  unfold read_array. rewrite read_doubles_written. reflexivity.
Qed.

(** ** Lists of knots *)

Lemma nth_padded_last1 (x : R) l a b n :
  length l = n -> nth (S n) (x :: l ++ [a; b]) 0 = a.
Proof.
  intros <-. cbn [nth]. rewrite app_nth2 by lia. rewrite Nat.sub_diag. reflexivity.
Qed.

Lemma nth_padded_last2 (x : R) l a b n :
  length l = n -> nth (S (S n)) (x :: l ++ [a; b]) 0 = b.
Proof.
  intros <-. cbn [nth]. rewrite app_nth2 by lia.
  replace (S (length l) - length l)%nat with 1%nat by lia. reflexivity.
Qed.

Lemma length_padded (x : R) l a b n :
  length l = n -> length (x :: l ++ [a; b]) = S (S (S n)).
Proof. intros <-. cbn [length]. rewrite length_app. cbn [length]. lia. Qed.

Lemma pow_1 y : pow 1 y = 1.
Proof.
  rewrite pow_pos_base by lra. unfold Rpower. rewrite ln_1, Rmult_0_r. apply exp_0.
Qed.

Lemma strictly_increasing_ms : strictly_increasing ms.
Proof.
  intros i Hi. unfold ms in *.
  do 17 (destruct i as [| i]; [cbn [nth]; lra |]).
  cbn [length] in Hi. lia.
Qed.

Lemma log10_lt_0 a : 0 < a -> a < 1 -> log10 a < 0.
Proof.
  intros H0 H1. replace 0 with (log10 (10 ^ 0)) by (rewrite log10_pow10; reflexivity).
  apply log10_lt; simpl; lra.
Qed.

(** ** The knots of the two cumulative splines *)

Section Cumulative.

Variable qag : (R -> R) -> R -> R -> R -> R.
Variable eval : GSLInterpolator -> R -> R.
Hypothesis contract : qag_contract qag.
Variable this0 : DiscreteStellarFeedback.

Let m := built qag eval this0.

Lemma built_delay_nonneg t : 0.03 <= t <= 13.6 -> 0 <= PopII_SNIa_delay m t.
Proof.
  intros Ht. apply PopII_SNIa_delay_window; [| exact Ht].
  left. apply (built_normalized qag eval contract this0).
Qed.

Lemma built_PopIII_IMF_nonneg x : 0 <= PopIII_IMF m x.
Proof.
  apply PopIII_IMF_nonneg. change (m.[_PopIII_M_low]) with 0.7. lra.
Qed.

(** The samples of the delay time loop stay inside the window. *)
Lemma delay_sample_window i :
  (i < 27)%nat ->
  0.03 <= pow 10 (log10 0.03 + INR i * 0.1) < 13.6.
Proof.
  intros Hi. split.
  - apply pow10_ge_log10; [lra |].
    pose proof (pos_INR i). nra.
  - apply pow10_lt_log10; [lra |].
    apply Rle_lt_trans with (log10 0.03 + 26 * 0.1); [| apply delay_grid_last].
    assert (INR i <= 26).
    { replace 26 with (INR 26) by (simpl; lra). apply le_INR. lia. }
    lra.
Qed.

Lemma IMF_sample_window i :
  (i < 286)%nat ->
  0.7 <= pow 10 (log10 0.7 + INR i * 0.01) < 500.
Proof.
  intros Hi. split.
  - apply pow10_ge_log10; [lra |].
    pose proof (pos_INR i). nra.
  - apply pow10_lt_log10; [lra |].
    apply Rle_lt_trans with (log10 0.7 + 285 * 0.01); [| apply IMF_grid_last].
    assert (INR i <= 285).
    { replace 285 with (INR 285) by (rewrite INR_IZR_INZ; simpl; lra).
      apply le_INR. lia. }
    lra.
Qed.

Let g := fun t => qag (PopII_SNIa_delay m) 0.03 (pow 10 t) 1e-8.
Let h := fun x => qag (PopIII_IMF m) (pow 10 x) 500 1e-8.

Lemma delay_first_sample : g (log10 0.03) = 0.
Proof.
  unfold g. rewrite pow10_log10 by lra. apply (qag_empty qag contract).
Qed.

Lemma delay_abscissas_increasing :
  strictly_increasing
    ((-2 + g (log10 0.03)) ::
       ramp (log10 0.03) 0.1 27 ++ [log10 13.6; log10 13.8]).
Proof.
  unfold strictly_increasing. apply successive_padded.
  - rewrite ramp_length. lia.
  - rewrite delay_first_sample, ramp_nth by lia.
    pose proof (log10_gt_m2 0.03). simpl. lra.
  - intros i Hi. rewrite ramp_length in Hi. rewrite !ramp_nth by lia.
    rewrite S_INR. lra.
  - rewrite ramp_length, ramp_nth by lia. change (27 - 1)%nat with 26%nat.
    replace (INR 26) with 26 by (simpl; lra). apply delay_grid_last.
  - apply log10_lt; lra.
Qed.

Lemma delay_ordinates_non_decreasing :
  non_decreasing (0 :: map g (ramp (log10 0.03) 0.1 27) ++ [1; 1]).
Proof.
  destruct (built_normalized qag eval contract this0) as [_ [_ Hone]].
  fold m in Hone.
  unfold non_decreasing. apply successive_padded.
  - rewrite length_map, ramp_length. lia.
  - rewrite nth_map_ramp by lia. unfold g.
    destruct (delay_sample_window 0) as [L U]; [lia |].
    apply (qag_nonneg qag contract); [exact L |].
    intros x Hx. apply built_delay_nonneg. lra.
  - intros i Hi. rewrite length_map, ramp_length in Hi.
    rewrite !nth_map_ramp by lia. unfold g.
    destruct (delay_sample_window i) as [L U]; [lia |].
    destruct (delay_sample_window (S i)) as [L' U']; [lia |].
    apply (qag_upper_mono qag contract).
    + exact L.
    + apply pow10_le. rewrite S_INR. lra.
    + intros x Hx. apply built_delay_nonneg. lra.
  - rewrite length_map, ramp_length. change (27 - 1)%nat with 26%nat.
    rewrite nth_map_ramp by lia. unfold g.
    destruct (delay_sample_window 26) as [L U]; [lia |].
    apply Rle_trans with (qag (PopII_SNIa_delay m) 0.03 13.6 1e-8);
      [| right; exact Hone].
    apply (qag_upper_mono qag contract).
    + exact L.
    + lra.
    + intros x Hx. apply built_delay_nonneg. lra.
  - lra.
Qed.

Lemma IMF_abscissas_increasing :
  strictly_increasing (-2 :: ramp (log10 0.7) 0.01 286 ++ [log10 500; 3]).
Proof.
  unfold strictly_increasing. apply successive_padded.
  - rewrite ramp_length. lia.
  - rewrite ramp_nth by lia. pose proof (log10_gt_m2 0.7). simpl. lra.
  - intros i Hi. rewrite ramp_length in Hi. rewrite !ramp_nth by lia.
    rewrite S_INR. lra.
  - rewrite ramp_length, ramp_nth by lia. change (286 - 1)%nat with 285%nat.
    replace (INR 285) with 285 by (rewrite INR_IZR_INZ; simpl; lra).
    apply IMF_grid_last.
  - apply log10_500_lt_3.
Qed.

Lemma IMF_ordinates_non_increasing :
  non_increasing
    (qag (PopIII_IMF m) 0 500 1e-8 ::
       map h (ramp (log10 0.7) 0.01 286) ++ [0; 0]).
Proof.
  unfold non_increasing.
  apply (successive_padded (fun x y => y <= x)).
  - rewrite length_map, ramp_length. lia.
  - rewrite nth_map_ramp by lia. unfold h.
    destruct (IMF_sample_window 0) as [L U]; [lia |].
    apply (qag_lower_mono qag contract).
    + lra.
    + lra.
    + intros x _. apply built_PopIII_IMF_nonneg.
  - intros i Hi. rewrite length_map, ramp_length in Hi.
    rewrite !nth_map_ramp by lia. unfold h.
    destruct (IMF_sample_window i) as [L U]; [lia |].
    destruct (IMF_sample_window (S i)) as [L' U']; [lia |].
    apply (qag_lower_mono qag contract).
    + apply pow10_le. rewrite S_INR. lra.
    + lra.
    + intros x _. apply built_PopIII_IMF_nonneg.
  - rewrite length_map, ramp_length. change (286 - 1)%nat with 285%nat.
    rewrite nth_map_ramp by lia. unfold h.
    destruct (IMF_sample_window 285) as [L U]; [lia |].
    apply (qag_nonneg qag contract); [lra |].
    intros x _. apply built_PopIII_IMF_nonneg.
  - lra.
Qed.

End Cumulative.

(** ** The delay time distribution above its support *)

Lemma PopII_SNIa_delay2_after this t :
  0 <= this.[_PopII_SNIa_delay_norm2] -> 15.65 <= t ->
  PopII_SNIa_delay2 this t = 0.
Proof.
  intros Hn Ht. unfold PopII_SNIa_delay2. cbv zeta.
  rewrite (Rltb_false t 0.25) by lra.
  unfold Rgtb, Rltb.
  destruct (Rlt_dec 0 _) as [H |]; [| reflexivity].
  exfalso.
  assert (E : exp ((0.25 - t) / 7) <= exp ((0.03 - 0.25) / 0.1)).
  { assert (L : (0.25 - t) / 7 <= (0.03 - 0.25) / 0.1) by lra.
    destruct L as [L | L];
      [left; apply exp_increasing; exact L | right; rewrite L; reflexivity]. }
  nra.
Qed.

(** ** The two cumulative splines, whatever the quadrature *)

Lemma padded_increasing x0 t0 step n a b :
  (0 < n)%nat -> 0 < step -> x0 < t0 ->
  t0 + INR (n - 1) * step < a -> a < b ->
  strictly_increasing (x0 :: ramp t0 step n ++ [a; b]).
Proof.
  intros Hn Hs H0 Ha Hb. unfold strictly_increasing. apply successive_padded.
  - rewrite ramp_length. exact Hn.
  - rewrite ramp_nth by exact Hn. simpl. lra.
  - intros i Hi. rewrite ramp_length in Hi. rewrite !ramp_nth by lia.
    rewrite S_INR. lra.
  - rewrite ramp_length, ramp_nth by lia. exact Ha.
  - exact Hb.
Qed.

Section Raw.

Variable qag : (R -> R) -> R -> R -> R -> R.
Variable eval : GSLInterpolator -> R -> R.
Variable this0 : DiscreteStellarFeedback.

Let m := built qag eval this0.

(** The object at the time the delay time loop runs, and at the time the
    PopIII loop runs. *)
Let A := normalize_delay qag (integrate_IMFs qag (set_parameters this0)).
Let B := A <| _PopII_SNIa_delay_spline :-> m.<_PopII_SNIa_delay_spline> |>.

Lemma built_SNIa_delay_spline_raw :
  let g := fun t => qag (PopII_SNIa_delay A) 0.03 (pow 10 t) 1e-8 in
  m.<_PopII_SNIa_delay_spline> =
  mkInterpolator TypeGSLCubicSplineInterpolator
    ((-2 + g (log10 0.03)) ::
       ramp (log10 0.03) 0.1 27 ++ [log10 13.6; log10 13.8])
    (0 :: map g (ramp (log10 0.03) 0.1 27) ++ [1; 1]).
Proof. reflexivity. Qed.

Lemma built_PopIII_IMF_spline_raw :
  let h := fun x => qag (PopIII_IMF B) (pow 10 x) 500 1e-8 in
  m.<_PopIII_IMF_spline> =
  mkInterpolator TypeGSLLinearInterpolator
    (-2 :: ramp (log10 0.7) 0.01 286 ++ [log10 500; 3])
    (qag (PopIII_IMF B) 0 500 1e-8 ::
       map h (ramp (log10 0.7) 0.01 286) ++ [0; 0]).
Proof. reflexivity. Qed.

End Raw.

(** ** A quadrature within tolerance that is not exact *)

(** The error of [biased_qag] meets the tolerance absolutely and
    relatively. *)
Lemma biased_qag_error f a b tol :
  0 <= tol ->
  Rabs (biased_qag f a b tol - grid_qag f a b tol) <= tol /\
  Rabs (biased_qag f a b tol - grid_qag f a b tol)
    <= tol * Rabs (grid_qag f a b tol).
Proof.
  intros Htol. unfold biased_qag. cbv zeta.
  set (I := grid_qag f a b tol).
  replace (I + (if 0 <? a then tol / 2 * Rmin 1 (Rabs I) else 0) - I)
    with (if 0 <? a then tol / 2 * Rmin 1 (Rabs I) else 0) by ring.
  pose proof (Rabs_pos I) as HI.
  pose proof (Rmin_l 1 (Rabs I)) as M1.
  pose proof (Rmin_r 1 (Rabs I)) as M2.
  assert (M0 : 0 <= Rmin 1 (Rabs I)) by (apply Rmin_glb; lra).
  destruct (0 <? a).
  - rewrite Rabs_pos_eq by (apply Rmult_le_pos; lra). split; nra.
  - rewrite Rabs_R0. split; [lra | apply Rmult_le_pos; lra].
Qed.

Lemma biased_qag_within_tolerance : qag_within_tolerance biased_qag grid_qag.
Proof.
  constructor; [exact grid_qag_contract |].
  intros f a b tol Htol.
  destruct (biased_qag_error f a b tol Htol) as [E _].
  pose proof (Rmax_l 1 (Rabs (grid_qag f a b tol))). nra.
Qed.

Lemma log10_003_gt : -1.9 < log10 0.03.
Proof.
  assert (E : log10 (/ 10 ^ 2) = -2).
  { rewrite log10_inv by lra. rewrite log10_pow10. simpl. lra. }
  pose proof (log10_gap_lt (/ 10 ^ 2) 0.03 1 10) as H.
  rewrite E in H. replace (INR 1 / INR 10) with 0.1 in H by (simpl; lra).
  assert (-2 + 0.1 < log10 0.03) by (apply H; first [lra | lia]).
  lra.
Qed.

(** Within tolerance, the integral over an empty interval is small. *)
Lemma tolerance_empty qag exact f a tol :
  qag_within_tolerance qag exact -> 0 <= tol -> Rabs (qag f a a tol) <= tol.
Proof.
  intros H Htol.
  pose proof (tolerance_error qag exact H f a a tol Htol) as E.
  rewrite (qag_empty exact (tolerance_exact qag exact H)) in E.
  rewrite Rminus_0_r, Rabs_R0, Rmax_left, Rmult_1_r in E by lra. exact E.
Qed.

(** The layout of the two cumulative splines. *)
Lemma cumulative_splines_layout qag exact eval this0 :
  qag_within_tolerance qag exact ->
  let m := built qag eval this0 in
  (let s := m.<_PopII_SNIa_delay_spline> in
   length (sp_x s) = 30%nat /\ length (sp_y s) = 30%nat /\
   strictly_increasing (sp_x s) /\
   nth 28 (sp_x s) 0 = log10 13.6 /\ nth 28 (sp_y s) 0 = 1 /\
   nth 29 (sp_x s) 0 = log10 13.8 /\ nth 29 (sp_y s) 0 = 1) /\
  (let s := m.<_PopIII_IMF_spline> in
   length (sp_x s) = 289%nat /\ length (sp_y s) = 289%nat /\
   strictly_increasing (sp_x s) /\
   nth 287 (sp_x s) 0 = log10 m.[_PopIII_M_upp] /\
   nth 287 (sp_y s) 1 = 0 /\
   nth 287 (sp_x s) 0 < nth 288 (sp_x s) 0 /\
   nth 288 (sp_y s) 1 = 0).
Proof.
  intros Htol m. split.
  - cbv zeta. unfold m. rewrite built_SNIa_delay_spline_raw.
    cbv zeta. cbn [sp_x sp_y].
    split; [apply length_padded, ramp_length |].
    split; [apply length_padded; rewrite length_map; apply ramp_length |].
    split.
    { rewrite pow10_log10 by lra.
      match goal with
      | |- context [qag ?f 0.03 0.03 1e-8] =>
          pose proof (tolerance_empty qag exact f 0.03 1e-8 Htol
                        ltac:(lra)) as E;
          set (c := qag f 0.03 0.03 1e-8) in *
      end.
      pose proof (Rle_abs c) as E'.
      apply padded_increasing.
      - lia.
      - lra.
      - pose proof log10_003_gt. lra.
      - change (27 - 1)%nat with 26%nat.
        replace (INR 26) with 26 by (simpl; lra). apply delay_grid_last.
      - apply log10_lt; lra. }
    split; [apply nth_padded_last1, ramp_length |].
    split; [apply nth_padded_last1; rewrite length_map; apply ramp_length |].
    split; [apply nth_padded_last2, ramp_length |].
    apply nth_padded_last2; rewrite length_map; apply ramp_length.
  - cbv zeta. unfold m. rewrite built_PopIII_IMF_spline_raw.
    cbv zeta. cbn [sp_x sp_y].
    change ((built qag eval this0).[_PopIII_M_upp]) with 500.
    split; [apply length_padded, ramp_length |].
    split; [apply length_padded; rewrite length_map; apply ramp_length |].
    split; [apply IMF_abscissas_increasing |].
    split; [apply nth_padded_last1, ramp_length |].
    split.
    { rewrite (nth_indep _ 1 0).
      - apply nth_padded_last1; rewrite length_map; apply ramp_length.
      - erewrite length_padded; [| rewrite length_map; apply ramp_length]. lia. }
    split.
    { rewrite (nth_padded_last1 _ _ _ _ 286) by apply ramp_length.
      rewrite (nth_padded_last2 _ _ _ _ 286) by apply ramp_length.
      apply log10_500_lt_3. }
    rewrite (nth_indep _ 1 0).
    + apply nth_padded_last2; rewrite length_map; apply ramp_length.
    + erewrite length_padded; [| rewrite length_map; apply ramp_length]. lia.
Qed.

(** The PopIII IMF is positive inside its mass interval. *)
Lemma PopIII_IMF_inside this m :
  this.[_PopIII_M_low] = 0.7 -> this.[_PopIII_M_upp] = 500 ->
  this.[_PopIII_M1] = log10 0.7 -> this.[_PopIII_M2] = 1.51130759 ->
  this.[_PopIII_M3] = log10 500 ->
  0 < this.[_PopIII_fac] ->
  0.7 < m < 500 -> 0 < PopIII_IMF this m.
Proof.
  intros Elow Eupp E1 E2 E3 Hfac Hm. unfold PopIII_IMF.
  rewrite Elow, Eupp, E1, E2, E3.
  rewrite Rgtb_true by lra. rewrite (Rltb_true m 500) by lra.
  cbn [andb]. cbv zeta.
  assert (L1 : log10 0.7 < 0) by (apply log10_lt_0; lra).
  assert (L3 : 2 < log10 500).
  { replace 2 with (log10 (10 ^ 2)) by (rewrite log10_pow10; simpl; lra).
    apply log10_lt; lra. }
  assert (Lm1 : log10 0.7 < log10 m) by (apply log10_lt; lra).
  assert (Lm3 : log10 m < log10 500) by (apply log10_lt; lra).
  set (logm := log10 m) in *. set (M1 := log10 0.7) in *.
  set (M3 := log10 500) in *.
  assert (P : forall x, 0 < x < 1 ->
            0 < (if this.[_PopIII_fac] * pow (x * (1.0 - x)) this.[_PopIII_pw]
                      >? 0
                 then this.[_PopIII_fac] *
                      pow (x * (1.0 - x)) this.[_PopIII_pw] / m
                 else 0)).
  { intros x Hx.
    assert (Hb : 0 < x * (1.0 - x)) by (apply Rmult_lt_0_compat; lra).
    rewrite pow_pos_base by exact Hb.
    assert (Hp : 0 < this.[_PopIII_fac] *
                     Rpower (x * (1.0 - x)) this.[_PopIII_pw])
      by (apply Rmult_lt_0_compat; [exact Hfac | apply exp_pos]).
    rewrite Rgtb_true by exact Hp. apply Rdiv_lt_0_compat; lra. }
  destruct (Rlt_dec logm 1.51130759) as [Hl | Hl].
  - rewrite (Rltb_true logm 1.51130759 Hl). apply P. split.
    + apply Rdiv_lt_0_compat; lra.
    + apply Rmult_lt_reg_r with (1.51130759 - M1); [lra |].
      unfold Rdiv. rewrite Rmult_assoc, Rinv_l by lra. lra.
  - rewrite (Rltb_false logm 1.51130759 Hl). apply P. split.
    + apply Rdiv_lt_0_compat; lra.
    + apply Rmult_lt_reg_r with (M3 - 1.51130759); [lra |].
      unfold Rdiv. rewrite Rmult_assoc, Rinv_l by lra. lra.
Qed.

(** * The claims *)

(** Claim C1.  Dumping an object and constructing a new one with the restart
    constructor from the written file succeeds, consumes the whole file, and
    yields an object in which every scalar member is equal to the original
    and every one of the five splines is the original one, hence evaluates
    identically under any evaluation; [restart] takes no quadrature and
    creates no spline from arrays.  The members are read in the order in
    which they were written: the two access logs are equal.  This holds for
    every object [this], in particular for every one built by [initialize],
    provided the dump of a spline is read back by its [create]. *)
Theorem dump_restart_roundtrip
    (spline_dump : GSLInterpolator -> list value)
    (spline_create : list value -> option (GSLInterpolator * list value)) :
  codec_roundtrip spline_dump spline_create ->
  forall this junk : DiscreteStellarFeedback,
    let rfile := dump spline_dump this empty_file in
    exists restored rest,
      restart spline_create (reopen rfile) junk = Some (restored, rest) /\
      contents rest = [] /\
      (forall f, restored.[f] = this.[f]) /\
      (forall f, restored.<f> = this.<f>) /\
      (forall (eval : GSLInterpolator -> R -> R) f x,
         eval restored.<f> x = eval this.<f> x) /\
      accesses rest = accesses rfile.
Proof.
  intros Hcodec this junk rfile.
  assert (E : exists restored rest,
             restart spline_create (reopen rfile) junk = Some (restored, rest) /\
             contents rest = [] /\
             (forall f, restored.[f] = this.[f]) /\
             (forall f, restored.<f> = this.<f>) /\
             accesses rest = accesses rfile).
  { subst rfile.
    cbv beta iota zeta delta
      [dump write dump_spline reopen empty_file contents accesses].
    rewrite <- !app_assoc. cbn [app].
    cbv beta iota zeta delta
      [restart read create_spline obind contents accesses].
    repeat (rewrite Hcodec;
            cbv beta iota zeta delta
              [restart read create_spline obind contents accesses]).
    eexists. eexists. (split; [reflexivity |]).
    (split; [reflexivity |]).
    (split; [intros f; destruct f; reflexivity |]).
    (split; [intros f; destruct f; reflexivity |]).
    reflexivity. }
  destruct E as [restored [rest [E1 [E2 [E3 [E4 E5]]]]]].
  exists restored, rest. repeat split; try assumption.
  intros eval f x. rewrite E4. reflexivity.
Qed.

(** The round trip of the object built with the reference collaborators,
    through the reference dump of splines. *)
Lemma dump_restart_roundtrip_witness :
  codec_roundtrip values_dump values_create /\
  let this := built grid_qag linear_eval blank in
  let rfile := dump values_dump this empty_file in
  exists restored rest,
    restart values_create (reopen rfile) blank = Some (restored, rest) /\
    contents rest = [] /\
    (forall f, restored.[f] = this.[f]) /\
    (forall f, restored.<f> = this.<f>) /\
    (forall (eval : GSLInterpolator -> R -> R) f x,
       eval restored.<f> x = eval this.<f> x) /\
    accesses rest = accesses rfile.
Proof.
  split; [exact values_codec_roundtrip |].
  exact (dump_restart_roundtrip values_dump values_create
           values_codec_roundtrip (built grid_qag linear_eval blank) blank).
Defined.












(** Claim C6, as amended.  In the cumulative PopIII IMF spline built by
    [initialize], for a quadrature that meets its contract, the first knot
    lies at abscissa -2 and holds the integral of the PopIII IMF from 0 to
    [M_upp]; the two trailing knots have ordinate 0, at [log10(M_upp)] and at
    3, which lies above it. *)
Theorem PopIII_IMF_spline_padding :
  forall qag eval this0,
    qag_contract qag ->
    exists m, initialize qag eval this0 = Some m /\
      let s := m.<_PopIII_IMF_spline> in
      nth 0 (sp_x s) 0 = -2 /\
      nth 0 (sp_y s) 0 = qag (PopIII_IMF m) 0 m.[_PopIII_M_upp] 1e-8 /\
      nth 287 (sp_x s) 0 = log10 m.[_PopIII_M_upp] /\
      nth 287 (sp_y s) 1 = 0 /\
      nth 288 (sp_x s) 0 = 3 /\
      log10 m.[_PopIII_M_upp] < 3 /\
      nth 288 (sp_y s) 1 = 0.
Proof.
  intros qag eval this0 contract. exists (built qag eval this0).
  split; [apply initialize_built |].
  cbv zeta. rewrite (built_PopIII_IMF_spline qag eval contract this0).
  cbv zeta. cbn [sp_x sp_y].
  change ((built qag eval this0).[_PopIII_M_upp]) with 500.
  split; [reflexivity |].
  split; [reflexivity |].
  split; [apply nth_padded_last1, ramp_length |].
  split.
  { rewrite (nth_indep _ 1 0).
    - apply nth_padded_last1; rewrite length_map; apply ramp_length.
    - erewrite length_padded; [| rewrite length_map; apply ramp_length]. lia. }
  split; [apply nth_padded_last2, ramp_length |].
  split; [apply log10_500_lt_3 |].
  rewrite (nth_indep _ 1 0).
  - apply nth_padded_last2; rewrite length_map; apply ramp_length.
  - erewrite length_padded; [| rewrite length_map; apply ramp_length]. lia.
Qed.

(** The padding of the PopIII IMF spline built with the reference
    collaborators. *)
Lemma PopIII_IMF_spline_padding_witness :
  qag_contract grid_qag /\
  exists m, initialize grid_qag linear_eval blank = Some m /\
      let s := m.<_PopIII_IMF_spline> in
      nth 0 (sp_x s) 0 = -2 /\
      nth 0 (sp_y s) 0 = grid_qag (PopIII_IMF m) 0 m.[_PopIII_M_upp] 1e-8 /\
      nth 287 (sp_x s) 0 = log10 m.[_PopIII_M_upp] /\
      nth 287 (sp_y s) 1 = 0 /\
      nth 288 (sp_x s) 0 = 3 /\
      log10 m.[_PopIII_M_upp] < 3 /\
      nth 288 (sp_y s) 1 = 0.
Proof.
  split; [exact grid_qag_contract |].
  exact (PopIII_IMF_spline_padding grid_qag linear_eval blank
           grid_qag_contract).
Defined.

(** Against claim C6 as stated: the first knot of the PopIII IMF spline does
    not lie at [log10(M_low) - 2]. *)
Lemma PopIII_IMF_spline_padding_not_log_offset :
  exists m, initialize grid_qag linear_eval blank = Some m /\
            nth 0 (sp_x m.<_PopIII_IMF_spline>) 0 <>
            log10 m.[_PopIII_M_low] - 2.
Proof.
  exists (built grid_qag linear_eval blank).
  split; [apply initialize_built |].
  change (nth 0 (sp_x (built grid_qag linear_eval blank).<_PopIII_IMF_spline>) 0)
    with (-2).
  change ((built grid_qag linear_eval blank).[_PopIII_M_low]) with 0.7.
  pose proof (log10_lt_0 0.7). lra.
Qed.

(** Claim C7, as amended.  After [initialize], [_PopII_fac_IMF] is
    [1 / PopII_IMF_sub1(1)]; [PopII_IMF(1)] takes the power-law branch, since
    [1 < 1] fails, and equals 1; and the low mass branch
    [_PopII_fac_IMF * PopII_IMF_sub1(m)] and the high mass branch
    [pow(m, -2.3)] agree at [m = 1], where both are 1. *)
Theorem PopII_IMF_at_one :
  forall qag eval this0,
    exists m, initialize qag eval this0 = Some m /\
              m.[_PopII_fac_IMF] = 1 / PopII_IMF_sub1 1 /\
              PopII_IMF m 1 = 1 /\
              m.[_PopII_fac_IMF] * PopII_IMF_sub1 1 = pow 1 (-2.3) /\
              pow 1 (-2.3) = 1.
Proof.
  intros qag eval this0. exists (built qag eval this0).
  split; [apply initialize_built |].
  split; [reflexivity |].
  split.
  - unfold PopII_IMF.
    change ((built qag eval this0).[_PopII_M_low]) with 0.07.
    change ((built qag eval this0).[_PopII_M_upp]) with 100.
    rewrite Rgtb_true by lra. rewrite (Rltb_true 1 100) by lra.
    rewrite (Rltb_false 1 1) by lra. cbn [andb]. apply pow_1.
  - split; [| apply pow_1].
    change ((built qag eval this0).[_PopII_fac_IMF]) with (1 / PopII_IMF_sub1 1).
    rewrite pow_1. pose proof (PopII_IMF_sub1_pos 1 Rlt_0_1). field. lra.
Qed.

(** Against claim C7 as stated: [PopII_IMF(1)] is not [_PopII_fac_IMF * 1],
    since [_PopII_fac_IMF] exceeds 1. *)
Lemma PopII_IMF_at_one_is_not_fac_IMF :
  exists m, initialize grid_qag linear_eval blank = Some m /\
            PopII_IMF m 1 <> m.[_PopII_fac_IMF] * 1.
Proof.
  exists (built grid_qag linear_eval blank).
  split; [apply initialize_built |].
  unfold PopII_IMF.
  change ((built grid_qag linear_eval blank).[_PopII_M_low]) with 0.07.
  change ((built grid_qag linear_eval blank).[_PopII_M_upp]) with 100.
  change ((built grid_qag linear_eval blank).[_PopII_fac_IMF])
    with (1 / PopII_IMF_sub1 1).
  rewrite Rgtb_true by lra. rewrite (Rltb_true 1 100) by lra.
  rewrite (Rltb_false 1 1) by lra. cbn [andb]. rewrite pow_1.
  pose proof fac_IMF_gt_1. lra.
Qed.

(** Claim C8.  In the object built by [initialize], for an interpolator
    that returns at a knot the ordinate of that knot, [PopIII_E_SN(0.7)] is 0
    and [PopIII_E_SN(150)] is [16e51]: the knots [(0.7, 0)] and [(150, 16)]
    of the energy table, scaled by [1e51]. *)
Theorem PopIII_E_SN_at_knots :
  forall qag eval this0,
    interpolates eval ->
    exists m, initialize qag eval this0 = Some m /\
              PopIII_E_SN eval m 0.7 = 0 /\
              PopIII_E_SN eval m 150 = 16e51.
Proof.
  intros qag eval this0 Hev. exists (built qag eval this0).
  split; [apply initialize_built |].
  unfold PopIII_E_SN.
  change ((built qag eval this0).<_PopIII_E_SN_spline>)
    with (mkInterpolator TypeGSLLinearInterpolator ms Es).
  assert (K : forall i, (i < 18)%nat ->
            eval (mkInterpolator TypeGSLLinearInterpolator ms Es) (nth i ms 0)
            = nth i Es 0).
  { intros i Hi. apply (Hev (mkInterpolator TypeGSLLinearInterpolator ms Es) i).
    - apply strictly_increasing_ms.
    - reflexivity.
    - exact Hi. }
  split.
  - change 0.7 with (nth 0 ms 0). rewrite K by lia. cbn [nth Es]. lra.
  - change 150 with (nth 12 ms 0). rewrite K by lia. cbn [nth Es]. lra.
Qed.

(** The two energies under the reference interpolator. *)
Lemma PopIII_E_SN_at_knots_witness :
  interpolates linear_eval /\
  exists m, initialize grid_qag linear_eval blank = Some m /\
            PopIII_E_SN linear_eval m 0.7 = 0 /\
            PopIII_E_SN linear_eval m 150 = 16e51.
Proof.
  split; [exact linear_eval_interpolates |].
  exact (PopIII_E_SN_at_knots grid_qag linear_eval blank linear_eval_interpolates).
Defined.

(** Claim C9.  [do_feedback] leaves the object, the star particle and the
    particle vector as they are, whatever they and [dt] are. *)
Theorem do_feedback_does_nothing (StarParticle ParticleVector : Type)
    (this : DiscreteStellarFeedback) (star : StarParticle)
    (particles : ParticleVector) (dt : R) :
  do_feedback this star particles dt = (this, star, particles).
Proof. reflexivity. Qed.

(** Claim C10.  On every object, both parts of the delay time distribution,
    and so their sum [PopII_SNIa_delay], are exactly 0 at [t = 0.03]; and the
    cumulative delay time spline built by [initialize] starts from ordinate
    0. *)
Theorem PopII_SNIa_delay_starts_at_zero :
  (forall this,
     PopII_SNIa_delay1 this 0.03 = 0 /\
     PopII_SNIa_delay2 this 0.03 = 0 /\
     PopII_SNIa_delay this 0.03 = 0) /\
  (forall qag eval this0,
     exists m, initialize qag eval this0 = Some m /\
               nth 0 (sp_y m.<_PopII_SNIa_delay_spline>) 1 = 0).
Proof.
  split.
  - intros this. unfold PopII_SNIa_delay.
    rewrite PopII_SNIa_delay1_start, PopII_SNIa_delay2_start.
    repeat split; lra.
  - intros qag eval this0. exists (built qag eval this0).
    split; [apply initialize_built | reflexivity].
Qed.
